(** * The OCR / translate bot: a shallow embedding of its text pipeline

    The Python variant of the bot (the second document of [src/index.js])
    extracts the text of every page of a PDF, translates it in bounded
    chunks, paginates the translation and appends the generated pages after
    a copy of each source page.  This file embeds that pipeline and the
    three message handlers built on it, and settles the properties the
    specification states about them.

    Python [str] values are sequences of Unicode code points: they are
    modelled as lists of code points ([N]), so that [len], slicing and the
    3500 / 2600 character limits count what Python counts. *)

From Stdlib Require Import List ZArith NArith Lia Bool.
From Stdlib Require Ascii String DecimalString.
Import ListNotations.
Import String.StringSyntax.
Delimit Scope string_scope with string.

Local Open Scope Z_scope.

(** ** Python strings *)

Module PyStr.

Definition char := N.
Definition pystr := list char.

(** ASCII literals, for messages and examples. *)
Definition lit (s : String.string) : pystr :=
  map Ascii.N_of_ascii (String.list_ascii_of_string s).
Arguments lit s%_string.

Definition LF : char := 0x0A%N.
Definition CR : char := 0x0D%N.

(** [len(s)], a Python int. *)
Definition len (s : pystr) : Z := Z.of_nat (length s).

(** Truthiness of a string: [if s:] holds for the non-empty ones. *)
Definition truthy (s : pystr) : bool :=
  match s with [] => false | _ :: _ => true end.

Definition in_range (lo hi c : N) : bool := ((lo <=? c) && (c <=? hi))%N.

(** [str.isspace] on one code point: the characters [str.strip()] removes. *)
Definition isspace (c : char) : bool :=
  in_range 0x09 0x0D c || in_range 0x1C 0x20 c
  || (c =? 0x85)%N || (c =? 0xA0)%N || (c =? 0x1680)%N
  || in_range 0x2000 0x200A c
  || (c =? 0x2028)%N || (c =? 0x2029)%N || (c =? 0x202F)%N
  || (c =? 0x205F)%N || (c =? 0x3000)%N.

(** The line boundaries of [str.splitlines]: LF, VT, FF, CR, FS, GS, RS,
    NEL, LS and PS (CR LF counts as one boundary). *)
Definition is_linebreak (c : char) : bool :=
  in_range 0x0A 0x0D c || in_range 0x1C 0x1E c
  || (c =? 0x85)%N || (c =? 0x2028)%N || (c =? 0x2029)%N.

Fixpoint lstrip (s : pystr) : pystr :=
  match s with
  | [] => []
  | c :: s' => if isspace c then lstrip s' else s
  end.

Fixpoint rstrip (s : pystr) : pystr :=
  match s with
  | [] => []
  | c :: s' =>
      match rstrip s' with
      | [] => if isspace c then [] else [c]
      | r => c :: r
      end
  end.

(** [s.strip()] *)
Definition strip (s : pystr) : pystr := rstrip (lstrip s).

(** [s.split(d)] for a one-character separator: never empty, keeps empty
    fields. *)
Fixpoint split (d : char) (s : pystr) : list pystr :=
  match s with
  | [] => [[]]
  | c :: s' =>
      if (c =? d)%N then [] :: split d s'
      else match split d s' with
           | [] => [[c]]
           | l :: ls => (c :: l) :: ls
           end
  end.

(** [s.splitlines()]: the lines without their boundaries; a final boundary
    opens no further line, and the empty string has no line. *)
Fixpoint splitlines (s : pystr) : list pystr :=
  match s with
  | [] => []
  | c :: s' =>
      if (c =? CR)%N then
        match s' with
        | c' :: s'' => if (c' =? LF)%N then [] :: splitlines s''
                       else [] :: splitlines s'
        | [] => [] :: splitlines s'
        end
      else if is_linebreak c then [] :: splitlines s'
      else match splitlines s' with
           | [] => [[c]]
           | l :: ls => (c :: l) :: ls
           end
  end.

(** [sep.join(l)] *)
Fixpoint join (sep : pystr) (l : list pystr) : pystr :=
  match l with
  | [] => []
  | x :: xs =>
      match xs with
      | [] => x
      | _ :: _ => x ++ sep ++ join sep xs
      end
  end.

(** [s[i:j]] for [0 <= i <= j], the only slices the program takes. *)
Definition slice (s : pystr) (i j : Z) : pystr :=
  firstn (Z.to_nat (j - i)) (skipn (Z.to_nat i) s).

(** [range(start, stop, step)] for a positive step, as the loop that
    produces it; [stop - start] rounds are always enough since every round
    advances by at least one. *)
Fixpoint range_loop (fuel : nat) (i stop step : Z) : list Z :=
  match fuel with
  | O => []
  | S fuel' =>
      if i <? stop then i :: range_loop fuel' (i + step) stop step else []
  end.

(** [str(n)] for a natural number. *)
Definition str_of_nat (n : nat) : pystr :=
  lit (DecimalString.NilEmpty.string_of_uint (Nat.to_uint n)).

End PyStr.
Import PyStr.

(** ** Exceptions and effects *)

(** An exception is represented by its message, which is what the handlers
    interpolate into their replies. *)
Definition exn := pystr.

Definition ValueError_range_step : exn :=
  lit "range() arg 3 must not be zero".

(** ** The Page Paginator

    [split_for_pdf] (index.js, Python part, l.219-242).  [max_chars] is a
    Python int, hence a [Z]; the callers pass 2600. *)

(** One round of the loop [for line in lines]: [st] is [(pages, buf)]. *)
Definition split_step (max_chars : Z) (st : list pystr * pystr) (line : pystr)
  : list pystr * pystr :=
  let (pages, buf) := st in
  if len buf + len line + 1 <=? max_chars
  then (pages, buf ++ line ++ [LF])
  else (pages ++ [strip buf], line ++ [LF]).

Definition split_for_pdf (text : pystr) (max_chars : Z) : list pystr :=
  let text := strip text in
  if len text <=? max_chars then
    (if truthy text then [text] else [[]])
  else
    let lines := splitlines text in
    let (pages, buf) := fold_left (split_step max_chars) lines ([], []) in
    if truthy (strip buf) then pages ++ [strip buf] else pages.

(** ** Collaborators and effects

    The OCR engine, the translation service, the two shaping libraries and
    the PDF reader are external: the pipeline is a function of them.  A call
    that can raise returns [inl] of the exception. *)

Record src_page (image : Type) : Type := mk_src_page {
  get_text : pystr;          (* [page.get_text("text") or ""] *)
  get_pixmap : image;        (* the page rendered at zoom 3 *)
  rect_width : Z;
  rect_height : Z
}.
Arguments mk_src_page {image}.
Arguments get_text {image}.
Arguments get_pixmap {image}.
Arguments rect_width {image}.
Arguments rect_height {image}.

(** A page of the output document: a copy of source page [i], or a new page
    with a header line and a text box. *)
Inductive out_page (image : Type) : Type :=
| Copied (i : nat) (p : src_page image)
| Generated (width height : Z) (header : pystr)
            (box : Z * Z * Z * Z) (text : pystr) (fontfile : option pystr).
Arguments Copied {image}.
Arguments Generated {image}.

Inductive attachment (image : Type) : Type :=
| PdfFile (pages : list (out_page image))
| TextFile (content : pystr).
Arguments PdfFile {image}.
Arguments TextFile {image}.

(** What a run does to the outside world, in order. *)
Inductive event (image : Type) : Type :=
| Translate (chunk : pystr)                         (* [translator.translate(c)] *)
| ReplyText (s : pystr)                             (* [reply_text(s)] *)
| ReplyDocument (document : attachment image) (filename : pystr).
Arguments Translate {image}.
Arguments ReplyText {image}.
Arguments ReplyDocument {image}.

(** A computation: the events it performed, and its value or the exception
    that ended it. *)
Definition Bot (image A : Type) : Type := list (event image) * (exn + A).

Definition ret {image A} (a : A) : Bot image A := ([], inr a).

Definition bind {image A B} (m : Bot image A) (k : A -> Bot image B)
  : Bot image B :=
  match m with
  | (evs, inl e) => (evs, inl e)
  | (evs, inr a) => let (evs', r) := k a in (evs ++ evs', r)
  end.

Notation "x <- m ;; k" := (bind m (fun x => k))
  (at level 61, m at next level, right associativity).
Notation "m ;;; k" := (bind m (fun _ => k))
  (at level 61, right associativity).

Definition lift {image A} (r : exn + A) : Bot image A := ([], r).

Definition emit {image} (ev : event image) : Bot image unit := ([ev], inr tt).

(** [try: m  except Exception as e: ...]: the exception becomes a value. *)
Definition attempt {image A} (m : Bot image A) : Bot image (exn + A) :=
  (fst m, inr (snd m)).

Fixpoint mapM {image A B} (f : A -> Bot image B) (l : list A)
  : Bot image (list B) :=
  match l with
  | [] => ret []
  | a :: l' => b <- f a ;; bs <- mapM f l' ;; ret (b :: bs)
  end.

Fixpoint foldM {image A S} (f : S -> A -> Bot image S) (l : list A) (s : S)
  : Bot image S :=
  match l with
  | [] => ret s
  | a :: l' => s' <- f s a ;; foldM f l' s'
  end.

Definition events {image A} (m : Bot image A) : list (event image) := fst m.
Definition outcome {image A} (m : Bot image A) : exn + A := snd m.

(** ** The Chunked Translator: packing paragraphs into chunks

    The first half of [translate_chunked] (l.162-182), which involves no
    collaborator.  With a limit of zero the hard split raises, as
    [range] does on a zero step; with a negative limit it yields nothing. *)

(** [range(0, stop, step)] for [0 <= stop]. *)
Definition py_range0 (stop step : Z) : exn + list Z :=
  if step =? 0 then inl ValueError_range_step
  else if 0 <? step then inr (range_loop (Z.to_nat stop) 0 stop step)
  else inr [].

(** The hard split of a long paragraph:
    [for i in range(0, len(p), max): chunks.append(p[i : i + max])]. *)
Definition hard_split (p : pystr) (max_chunk_chars : Z) : exn + list pystr :=
  match py_range0 (len p) max_chunk_chars with
  | inl e => inl e
  | inr idx => inr (map (fun i => slice p i (i + max_chunk_chars)) idx)
  end.

(** One round of the packing loop: [st] is [(chunks, buf)]. *)
Definition chunk_step (max_chunk_chars : Z) (st : list pystr * pystr)
  (p : pystr) : exn + (list pystr * pystr) :=
  let (chunks, buf) := st in
  if len buf + len p + 1 <=? max_chunk_chars
  then inr (chunks, strip (buf ++ [LF] ++ p))
  else
    let chunks := if truthy buf then chunks ++ [buf] else chunks in
    if len p <=? max_chunk_chars then inr (chunks, p)
    else match hard_split p max_chunk_chars with
         | inl e => inl e
         | inr slices => inr (chunks ++ slices, [])
         end.

Fixpoint chunk_loop (max_chunk_chars : Z) (parts : list pystr)
  (st : list pystr * pystr) : exn + (list pystr * pystr) :=
  match parts with
  | [] => inr st
  | p :: parts' =>
      match chunk_step max_chunk_chars st p with
      | inl e => inl e
      | inr st' => chunk_loop max_chunk_chars parts' st'
      end
  end.

(** [parts = [p.strip() for p in text.split("\n") if p.strip()]] *)
Definition paragraphs (text : pystr) : list pystr :=
  map strip (filter (fun p => truthy (strip p)) (split LF text)).

(** The chunks of an already trimmed, non-empty text. *)
Definition make_chunks (text : pystr) (max_chunk_chars : Z)
  : exn + list pystr :=
  match chunk_loop max_chunk_chars (paragraphs text) ([], []) with
  | inl e => inl e
  | inr (chunks, buf) => inr (if truthy buf then chunks ++ [buf] else chunks)
  end.

Definition NO_TEXT_ON_PAGE : pystr := lit "(No text found on this page)".
Definition NO_TEXT : pystr := lit "(No text found)".

(** The Arabic placeholder used when no translation was obtained. *)
Definition NO_TRANSLATION : pystr :=
  [0x28; 0x62a; 0x639; 0x630; 0x631; 0x20; 0x627; 0x644; 0x62d; 0x635;
   0x648; 0x644; 0x20; 0x639; 0x644; 0x649; 0x20; 0x62a; 0x631; 0x62c;
   0x645; 0x629; 0x29]%N.

Definition EM_DASH : char := 0x2014%N.

Section Pipeline.

Variable image : Type.
Variable file : Type.

(** [pytesseract.image_to_string] with the configured languages. *)
Variable pytesseract : image -> exn + pystr.
(** [translator.translate] of [GoogleTranslator(source="auto", target="ar")]. *)
Variable translator : pystr -> exn + pystr.
(** [ArabicReshaper(...).reshape] and [bidi.algorithm.get_display]. *)
Variable reshape : pystr -> pystr.
Variable get_display : pystr -> pystr.
(** [fitz.open(path)] on the downloaded file. *)
Variable fitz_open : file -> exn + list (src_page image).
(** [ARABIC_FONT] when the file exists, else [None]. *)
Variable fontfile : option pystr.

Local Abbreviation Bot := (Bot image).

(** *** RTL Text Shaper

    [prepare_arabic_for_pdf] (l.137-150). *)

Definition shape_line (line : pystr) : pystr :=
  if negb (truthy (strip line)) then []
  else get_display (reshape line).

Definition prepare_arabic_for_pdf (text : pystr) : pystr :=
  let out_lines := map shape_line (splitlines text) in
  join [LF] out_lines.

(** *** Chunked Translator

    [translate_chunked] (l.153-187).  [(text or "")] is [text] itself on a
    [str].  Every call of the translation service is recorded as a
    [Translate] event; a call that raises ends the run. *)

Definition call_translator (c : pystr) : Bot pystr :=
  emit (Translate c) ;;; lift (translator c).

Definition translate_chunked (text : pystr) (max_chunk_chars : Z)
  : Bot pystr :=
  let text := strip text in
  if negb (truthy text) then ret []
  else
    chunks <- lift (make_chunks text max_chunk_chars) ;;
    translated <- mapM call_translator chunks ;;
    ret (strip (join [LF; LF] translated)).

(** *** Text Extractor

    [ocr_pil_image] (l.190-199) and [extract_text_from_pdf_page]
    (l.202-216). *)

Definition ocr_pil_image (img : image) : Bot pystr :=
  lift (pytesseract img).

Definition extract_text_from_pdf_page (page : src_page image) : Bot pystr :=
  let extracted := strip (get_text page) in
  o <- ocr_pil_image (get_pixmap page) ;;
  let ocr := strip o in
  ret (strip (join [LF] (filter truthy [extracted; ocr]))).

(** *** Document Assembler

    [build_translated_pdf] (l.245-294).  The output document [out] is
    threaded through the page loop; pages are only ever appended to it. *)

Definition header_of (i j total : nat) : pystr :=
  lit "Page " ++ str_of_nat (i + 1) ++ lit " " ++ [EM_DASH]
  ++ lit " Arabic Translation (" ++ str_of_nat j ++ lit "/"
  ++ str_of_nat total ++ lit ")".

(** The page generated for chunk [j] of [total] of source page [i]. *)
Definition translation_page (i : nat) (page : src_page image) (total : nat)
  (jc : nat * pystr) : out_page image :=
  let (j, chunk) := jc in
  let margin := 40 in
  Generated (rect_width page) (rect_height page)
    (header_of i j total)
    (margin, margin + 10, rect_width page - margin, rect_height page - margin)
    (prepare_arabic_for_pdf chunk)
    fontfile.

(** [enumerate(l, start)] *)
Definition enumerate {A} (l : list A) (start : nat) : list (nat * A) :=
  combine (seq start (length l)) l.

(** The body of [for i in range(src.page_count)]: [out] is the output
    document so far. *)
Definition process_page (out : list (out_page image))
  (ip : nat * src_page image) : Bot (list (out_page image)) :=
  let (i, page) := ip in
  let out := out ++ [Copied i page] in
  t <- extract_text_from_pdf_page page ;;
  let english := strip t in
  let english := if truthy english then english else NO_TEXT_ON_PAGE in
  a <- translate_chunked english 3500 ;;
  let arabic := strip a in
  let arabic := if truthy arabic then arabic else NO_TRANSLATION in
  let chunks := split_for_pdf arabic 2600 in
  ret (fold_left
         (fun out jc => out ++ [translation_page i page (length chunks) jc])
         (enumerate chunks 1) out).

(** The value is the document handed to [out.save]. *)
Definition build_translated_pdf (input : file) : Bot (list (out_page image)) :=
  src <- lift (fitz_open input) ;;
  foldM process_page (enumerate src 0) [].

(** *** The output document, as the specification describes it *)

(** The translated text of one page, placeholders applied: the part of
    [process_page] between the copy and the generated pages. *)
Definition page_arabic (page : src_page image) : Bot pystr :=
  t <- extract_text_from_pdf_page page ;;
  let english := strip t in
  let english := if truthy english then english else NO_TEXT_ON_PAGE in
  a <- translate_chunked english 3500 ;;
  let arabic := strip a in
  ret (if truthy arabic then arabic else NO_TRANSLATION).

(** The generated pages of source page [i]: one per chunk of the paginated
    translation. *)
Definition translation_pages (i : nat) (page : src_page image)
  (arabic : pystr) : list (out_page image) :=
  let chunks := split_for_pdf arabic 2600 in
  map (translation_page i page (length chunks)) (enumerate chunks 1).

(** Source page [i] contributes its copy, then its generated pages. *)
Definition page_block (i : nat) (page : src_page image) (arabic : pystr)
  : list (out_page image) :=
  Copied i page :: translation_pages i page arabic.

(** The whole document: the blocks of the source pages, in source order,
    [i] being the index of the first page of [src]. *)
Fixpoint expected_layout (i : nat) (src : list (src_page image))
  (arabics : list pystr) : list (out_page image) :=
  match src, arabics with
  | page :: src', arabic :: arabics' =>
      page_block i page arabic ++ expected_layout (S i) src' arabics'
  | _, _ => []
  end.

(** *** Message handlers

    [handle_text] (l.371-377) is the whole handler.  [handle_pdf] and
    [handle_image] below are the PDF and image handlers from the point
    where the file has been downloaded and the image opened: they take the
    downloaded file and the opened image.  The steps before that point
    ([get_file], [download_to_drive], and [Image.open] for an image), which
    can raise, are in the whole handlers [handle_pdf_update] (l.305-322)
    and [handle_image_update] (l.325-368) further down.  Replies are events
    and are taken to be delivered. *)

Definition reply_text (s : pystr) : Bot unit := emit (ReplyText s).
Definition reply_document (d : attachment image) (filename : pystr)
  : Bot unit := emit (ReplyDocument d filename).

Definition handle_pdf (document : file) : Bot unit :=
  reply_text (lit "Processing your PDF (OCR + translation)...") ;;;
  r <- attempt (build_translated_pdf document) ;;
  match r with
  | inl e => reply_text (lit "Failed to process PDF: " ++ e)
  | inr out => reply_document (PdfFile out) (lit "translated.pdf")
  end.

Definition ocr_and_translate (img : image) : Bot (pystr * pystr) :=
  o <- ocr_pil_image img ;;
  let extracted := strip o in
  let extracted := if truthy extracted then extracted else NO_TEXT in
  a <- translate_chunked extracted 3500 ;;
  let arabic := strip a in
  let arabic := if truthy arabic then arabic else NO_TRANSLATION in
  ret (extracted, arabic).

Definition handle_image (img : image) : Bot unit :=
  reply_text (lit "Processing image (OCR + translation)...") ;;;
  r <- attempt (ocr_and_translate img) ;;
  match r with
  | inl e => reply_text (lit "Failed to process image: " ++ e)
  | inr (extracted, arabic) =>
      if len arabic <=? 3500 then reply_text arabic
      else reply_document (TextFile arabic) (lit "translation_ar.txt")
  end.

Definition handle_text (text : pystr) : Bot unit :=
  let text := strip text in
  if negb (truthy text) then ret tt
  else
    arabic <- translate_chunked text 3500 ;;
    reply_text (if truthy arabic then arabic else NO_TRANSLATION).

End Pipeline.

Arguments shape_line reshape get_display line : assert.
Arguments prepare_arabic_for_pdf reshape get_display text : assert.
Arguments call_translator {image} translator c.
Arguments translate_chunked {image} translator text max_chunk_chars.
Arguments ocr_pil_image {image} pytesseract img.
Arguments extract_text_from_pdf_page {image} pytesseract page.
Arguments translation_page {image} reshape get_display fontfile i page total jc.
Arguments process_page {image} pytesseract translator reshape get_display
  fontfile out ip.
Arguments build_translated_pdf {image file} pytesseract translator reshape
  get_display fitz_open fontfile input.
Arguments page_arabic {image} pytesseract translator page.
Arguments translation_pages {image} reshape get_display fontfile i page arabic.
Arguments page_block {image} reshape get_display fontfile i page arabic.
Arguments expected_layout {image} reshape get_display fontfile i src arabics.
Arguments reply_text {image} s.
Arguments reply_document {image} d filename.
Arguments handle_pdf {image file} pytesseract translator reshape get_display
  fitz_open fontfile document.
Arguments ocr_and_translate {image} pytesseract translator img.
Arguments handle_image {image} pytesseract translator img.
Arguments handle_text {image} translator text.

(** ** The PDF and image handlers, from the update

    The whole of [handle_pdf] (l.305-322) and [handle_image] (l.325-368).
    After the progress message the handler asks Telegram for the file and
    downloads it, outside any [try]: an exception there leaves the handler.
    The temporary directory only names the place where the downloaded
    content is stored, and the suffix chosen for an image only names that
    file; neither is modelled. *)

(** A message with an image: [update.message.photo], the sizes of a photo
    (empty when the image came as a document), and
    [update.message.document]. *)
Record image_message (tg_ref : Type) : Type := mk_image_message {
  photo : list tg_ref;
  document : option tg_ref
}.
Arguments mk_image_message {tg_ref}.
Arguments photo {tg_ref}.
Arguments document {tg_ref}.

(** What [None.get_file()] raises. *)
Definition AttributeError_get_file : exn :=
  lit "'NoneType' object has no attribute 'get_file'".

Section Updates.

Variable image : Type.
(** What [fitz.open] reads, and what [Image.open] reads. *)
Variable file : Type.
Variable image_file : Type.
(** A photo size or a document of a message, and what [get_file] gives. *)
Variable tg_ref : Type.
Variable tg_file : Type.

Variable pytesseract : image -> exn + pystr.
Variable translator : pystr -> exn + pystr.
Variable reshape : pystr -> pystr.
Variable get_display : pystr -> pystr.
Variable fitz_open : file -> exn + list (src_page image).
Variable fontfile : option pystr.

(** [get_file()] on a photo size or a document. *)
Variable get_file : tg_ref -> exn + tg_file.
(** [tg_file.download_to_drive(path)]: the content stored at [path]. *)
Variable download_pdf : tg_file -> exn + file.
Variable download_image : tg_file -> exn + image_file.
(** [Image.open(img_path)] *)
Variable image_open : image_file -> exn + image.

Local Abbreviation Bot := (Bot image).

Definition handle_pdf_update (doc : tg_ref) : Bot unit :=
  reply_text (lit "Processing your PDF (OCR + translation)...") ;;;
  tg <- lift (get_file doc) ;;
  input <- lift (download_pdf tg) ;;
  r <- attempt (build_translated_pdf pytesseract translator reshape
                  get_display fitz_open fontfile input) ;;
  match r with
  | inl e => reply_text (lit "Failed to process PDF: " ++ e)
  | inr out => reply_document (PdfFile out) (lit "translated.pdf")
  end.

(** [update.message.photo[-1].get_file()] for a photo, else
    [update.message.document.get_file()]. *)
Definition image_tg_file (msg : image_message tg_ref) : exn + tg_file :=
  match rev (photo msg) with
  | largest :: _ => get_file largest
  | [] =>
      match document msg with
      | Some d => get_file d
      | None => inl AttributeError_get_file
      end
  end.

(** The function run in the worker thread: it opens the image itself. *)
Definition open_ocr_and_translate (f : image_file) : Bot (pystr * pystr) :=
  img <- lift (image_open f) ;;
  ocr_and_translate pytesseract translator img.

Definition handle_image_update (msg : image_message tg_ref) : Bot unit :=
  reply_text (lit "Processing image (OCR + translation)...") ;;;
  tg <- lift (image_tg_file msg) ;;
  f <- lift (download_image tg) ;;
  r <- attempt (open_ocr_and_translate f) ;;
  match r with
  | inl e => reply_text (lit "Failed to process image: " ++ e)
  | inr (extracted, arabic) =>
      if len arabic <=? 3500 then reply_text arabic
      else reply_document (TextFile arabic) (lit "translation_ar.txt")
  end.

End Updates.

Arguments handle_pdf_update {image file tg_ref tg_file} pytesseract translator
  reshape get_display fitz_open fontfile get_file download_pdf doc.
Arguments image_tg_file {tg_ref tg_file} get_file msg.
Arguments open_ocr_and_translate {image image_file} pytesseract translator
  image_open f.
Arguments handle_image_update {image image_file tg_ref tg_file} pytesseract
  translator get_file download_image image_open msg.

(** ** A small concrete world, for running the model *)

Module Demo.

(** An image is the text an ideal OCR reads off it; a file is its pages. *)
Definition image := pystr.
Definition file := list (src_page image).

Definition pytesseract (img : image) : exn + pystr := inr img.
(** A translator that fails on everything. *)
Definition translator_down (c : pystr) : exn + pystr :=
  inl (lit "connection refused").
(** A translator that answers with its input. *)
Definition translator_echo (c : pystr) : exn + pystr := inr c.
Definition reshape (s : pystr) : pystr := s.
Definition get_display (s : pystr) : pystr := rev s.
Definition fitz_open (f : file) : exn + list (src_page image) := inr f.
(** The mocked translator of the end-to-end image scenario: it answers
    with the Arabic word for "test". *)
Definition ARABIC_TEST : pystr := [0x627; 0x62e; 0x62a; 0x628; 0x627; 0x631]%N.
Definition translator_mock (c : pystr) : exn + pystr := inr ARABIC_TEST.
Definition fontfile : option pystr := Some (lit "fonts/Amiri-Regular.ttf").
(** Telegram: a reference is a file id, and so is the file it gives. *)
Definition get_file (file_id : pystr) : exn + pystr := inr file_id.
(** Telegram refusing a file. *)
Definition get_file_refused (file_id : pystr) : exn + pystr :=
  inl (lit "File is too big").
(** A download whose content is the text on the image. *)
Definition download_image (tg : pystr) : exn + image := inr (lit "TEST").
Definition image_open (f : image) : exn + image := inr f.


(** A two-page document: a page of text, then an empty scan. *)
Definition demo_pdf : file :=
  [ mk_src_page (lit "Hello World") (lit "Hello World") 612 792;
    mk_src_page [] [] 612 792 ].


Definition download_pdf (tg : pystr) : exn + file := inr demo_pdf.

End Demo.

(** ** The PPT to PDF bot

    The two JavaScript variants ([src/indes.js], and the first document of
    [src/index.js]) register the same handler for incoming documents; they
    differ in the text that closes a successful conversion.  JavaScript
    strings are sequences of UTF-16 code units; every character the
    handler writes lies in the basic plane, so a code unit is a code point
    here too.  The Telegram client and the HTTP client are collaborators:
    each call is an event of the run and returns a value or the error it
    throws.  The handler is modelled for a document that carries a file
    name, and replies are taken to be delivered. *)

Module PptBot.

Definition jsstr := list N.
Definition bytes := list N.

Fixpoint eqb_str (a b : jsstr) : bool :=
  match a, b with
  | [], [] => true
  | x :: a', y :: b' => (x =? y)%N && eqb_str a' b'
  | _, _ => false
  end.

(** Canonicalisation under the [i] flag: upper-casing.  Only the ASCII
    letters canonicalise to the letters of the pattern. *)
Definition canon (c : N) : N :=
  if in_range 0x61 0x7A c then (c - 32)%N else c.

(** [/\.(ppt|pptx)$/i] tried at the start of [s]: the rest of the name, to
    its end, is the extension. *)
Definition ext_matches (s : jsstr) : bool :=
  eqb_str (map canon s) (lit ".PPT") || eqb_str (map canon s) (lit ".PPTX").

(** The leftmost match of the pattern in [s]: the part of [s] before it. *)
Fixpoint search (s : jsstr) : option jsstr :=
  match s with
  | [] => None
  | c :: s' =>
      if ext_matches s then Some []
      else match search s' with
           | Some pre => Some (c :: pre)
           | None => None
           end
  end.

(** [file_name.match(/\.(ppt|pptx)$/i)] as a condition. *)
Definition is_ppt (file_name : jsstr) : bool :=
  match search file_name with Some _ => true | None => false end.

(** [file_name.replace(/\.(ppt|pptx)$/i, ".pdf")] *)
Definition to_pdf_name (file_name : jsstr) : jsstr :=
  match search file_name with
  | Some pre => pre ++ lit ".pdf"
  | None => file_name
  end.

(** A thrown error: [err.response?.data?.error?.message], when every link
    of that chain is there, and [err.message]. *)
Record js_error : Type := mk_error {
  response_error_message : option jsstr;
  message : jsstr
}.

(** [err.response?.data?.error?.message || err.message] *)
Definition error_text (err : js_error) : jsstr :=
  match response_error_message err with
  | Some m => if truthy m then m else message err
  | None => message err
  end.

Inductive js_event : Type :=
| Reply (text : jsstr)                                  (* [ctx.reply] *)
| ReplyWithDocument (source : bytes) (filename : jsstr) (* [ctx.replyWithDocument] *)
| GetFile (file_id : jsstr)                             (* [ctx.telegram.getFile] *)
| HttpGet (url : jsstr) (bearer : option jsstr)         (* [axios.get] *)
| HttpPost (url : jsstr) (bearer : option jsstr).       (* [axios.post] *)

Definition Js (A : Type) : Type := list js_event * (js_error + A).

Definition jret {A} (a : A) : Js A := ([], inr a).

Definition jbind {A B} (m : Js A) (k : A -> Js B) : Js B :=
  match m with
  | (evs, inl e) => (evs, inl e)
  | (evs, inr a) => let (evs', r) := k a in (evs ++ evs', r)
  end.

(** A call to a collaborator: the event, then its answer. *)
Definition call {A} (ev : js_event) (r : js_error + A) : Js A := ([ev], r).

Definition say (ev : js_event) : Js unit := ([ev], inr tt).

Definition MARK_CROSS : N := 0x274C%N.
Definition MARK_CHECK : N := 0x2705%N.
Definition HOURGLASS : N := 0x23F3%N.
Definition ELLIPSIS : N := 0x2026%N.

Definition ONLY_PPT : jsstr :=
  [MARK_CROSS] ++ lit " Only PPT/PPTX files are allowed.".

Definition CONVERTING : jsstr :=
  [HOURGLASS] ++ lit " Converting your PPT" ++ [ELLIPSIS] ++ lit " ("
  ++ [0x62c; 0x627; 0x631; 0x64a; 0x20; 0x62a; 0x62d; 0x648; 0x64a; 0x644;
      0x20; 0x627; 0x644; 0x645; 0x644; 0x641]%N
  ++ lit ")".

Definition ERROR_PREFIX : jsstr := [MARK_CROSS] ++ lit " Error: ".

(** The closing text of [src/indes.js]. *)
Definition CONVERTED_indes : jsstr :=
  [MARK_CHECK] ++ lit " Converted successfully!".

(** The closing text of [src/index.js]. *)
Definition CONVERTED_index : jsstr :=
  [MARK_CHECK] ++ lit " Converted successfully ("
  ++ [0x62a; 0x645; 0x20; 0x627; 0x644; 0x62a; 0x62d; 0x648; 0x64a; 0x644;
      0x20; 0x628; 0x646; 0x62c; 0x627; 0x62d]%N
  ++ lit ")".

Section Handler.

(** [process.env.BOT_TOKEN] and [process.env.START_TASK_URL]. *)
Variable BOT_TOKEN : jsstr.
Variable START_TASK_URL : jsstr.

(** [ctx.telegram.getFile(file_id)]: the [file_path] of the answer. *)
Variable getFile : jsstr -> js_error + jsstr.
(** [axios.get(url, {responseType: "arraybuffer", headers})]: the data. *)
Variable axios_get : jsstr -> option jsstr -> js_error + bytes.
(** [axios.post(START_TASK_URL)]: [server], [task] and [token] of the data. *)
Variable axios_post_start : jsstr -> js_error + (jsstr * jsstr * jsstr).
(** The upload: url, task, file content, file name, bearer token; the
    [server_filename] of the answer. *)
Variable axios_post_upload :
  jsstr -> jsstr -> bytes -> jsstr -> jsstr -> js_error + jsstr.
(** The conversion request: url, task, server file name, file name, bearer
    token. *)
Variable axios_post_process :
  jsstr -> jsstr -> jsstr -> jsstr -> jsstr -> js_error + unit.

(** The body of the [try] block, for a name the pattern accepts. *)
Definition convert (closing : jsstr) (file_name file_id : jsstr) : Js unit :=
  jbind (say (Reply CONVERTING)) (fun _ =>
  jbind (call (GetFile file_id) (getFile file_id)) (fun file_path =>
  let fileUrl := lit "https://api.telegram.org/file/bot" ++ BOT_TOKEN
                 ++ lit "/" ++ file_path in
  jbind (call (HttpGet fileUrl None) (axios_get fileUrl None))
    (fun fileBuffer =>
  jbind (call (HttpPost START_TASK_URL None)
           (axios_post_start START_TASK_URL)) (fun start =>
  let '(server, task, token) := start in
  let upload_url := lit "https://" ++ server ++ lit "/v1/upload" in
  jbind (call (HttpPost upload_url (Some token))
           (axios_post_upload upload_url task fileBuffer file_name token))
    (fun serverFilename =>
  let process_url := lit "https://" ++ server ++ lit "/v1/process" in
  jbind (call (HttpPost process_url (Some token))
           (axios_post_process process_url task serverFilename file_name
              token)) (fun _ =>
  let download_url :=
    lit "https://" ++ server ++ lit "/v1/download/" ++ task in
  jbind (call (HttpGet download_url (Some token))
           (axios_get download_url (Some token))) (fun pdfBuffer =>
  let outName := to_pdf_name file_name in
  jbind (say (ReplyWithDocument pdfBuffer outName)) (fun _ =>
  say (Reply closing))))))))).

(** The handler of [bot.on("document", ...)]: what it does, in order.  The
    [catch] clause turns any error of the body into a reply. *)
Definition on_document (closing : jsstr) (file_name file_id : jsstr)
  : list js_event :=
  if negb (is_ppt file_name) then [Reply ONLY_PPT]
  else
    match convert closing file_name file_id with
    | (evs, inr _) => evs
    | (evs, inl err) => evs ++ [Reply (ERROR_PREFIX ++ error_text err)]
    end.

End Handler.

(** Whether an event hands a document to the user, or calls out. *)
Definition is_document (ev : js_event) : bool :=
  match ev with ReplyWithDocument _ _ => true | _ => false end.

Definition is_request (ev : js_event) : bool :=
  match ev with
  | GetFile _ | HttpGet _ _ | HttpPost _ _ => true
  | _ => false
  end.

(** A run that failed showed no document. *)
Definition clean_failure {A} (m : Js A) : Prop :=
  match snd m with
  | inl _ => filter is_document (fst m) = []
  | inr _ => True
  end.

(** A conversion service that answers every call. *)
Definition demo_getFile (file_id : jsstr) : js_error + jsstr :=
  inr (lit "documents/file_7.pptx").
Definition demo_get (url : jsstr) (bearer : option jsstr)
  : js_error + bytes := inr [1; 2; 3]%N.
Definition demo_start (url : jsstr) : js_error + (jsstr * jsstr * jsstr) :=
  inr (lit "api8.example.org", lit "t42", lit "secret").
Definition demo_upload (url task : jsstr) (data : bytes)
  (name token : jsstr) : js_error + jsstr := inr (lit "srv_1.pptx").
Definition demo_process (url task server_filename name token : jsstr)
  : js_error + unit := inr tt.
(** The same service, refusing the conversion. *)
Definition demo_process_refused (url task server_filename name token : jsstr)
  : js_error + unit :=
  inl (mk_error (Some (lit "Damaged file")) (lit "Request failed with status code 400")).

End PptBot.

(** ** Vocabulary of the properties *)

Definition nonspace (s : pystr) : pystr :=
  filter (fun c => negb (isspace c)) s.

Definition nonbreak (s : pystr) : pystr :=
  filter (fun c => negb (is_linebreak c)) s.

(** A string is blank when [s.strip()] is empty. *)
Definition blank (s : pystr) : bool := negb (truthy (strip s)).

Definition unlines (g : list pystr) : pystr :=
  concat (map (fun l => l ++ [LF]) g).

(** No line contains a line boundary. *)
Definition breakfree (l : pystr) : Prop :=
  forall c, In c l -> is_linebreak c = false.

Definition page_of_lines (g : list pystr) : pystr := strip (unlines g).

(** What the buffer looks like between two rounds. *)
Definition buf_ok (max : Z) (buf : pystr) : Prop :=
  buf = [] \/ exists b, buf = b ++ [LF] /\ len b <= max.

(** C2, as the specification states it: the pages put end to end, line
    separators aside, are the input, line separators aside. *)
Definition reconstructs_input (text : pystr) (max_chars : Z) : Prop :=
  nonbreak (concat (split_for_pdf text max_chars)) = nonbreak text.

(** C3, as the specification states it: a line longer than the capacity is
    cut, one page ending with its beginning and the next page starting with
    the character that follows. *)
Definition wrapped_onto_next (line : pystr) (pages : list pystr) : Prop :=
  exists before p1 p2 after pre c post,
    pages = before ++ p1 :: p2 :: after /\
    line = pre ++ c :: post /\ pre <> [] /\
    (exists u, p1 = u ++ pre) /\ (exists v, p2 = c :: v).

Definition wraps_long_lines (text : pystr) (max_chars : Z) : Prop :=
  forall line, In line (splitlines (strip text)) -> max_chars < len line ->
               wrapped_onto_next line (split_for_pdf text max_chars).

(** C4, as the specification states it: the output has as many lines as the
    input, and a blank line wherever the input has one. *)
Definition preserves_lines (reshape get_display : pystr -> pystr)
  (text : pystr) : Prop :=
  let out := prepare_arabic_for_pdf reshape get_display text in
  length (splitlines out) = length (splitlines text) /\
  forall i line, nth_error (splitlines text) i = Some line ->
                 blank line = true ->
                 nth_error (splitlines out) i = Some [].

Definition bounded (max : Z) (c : pystr) : Prop := len c <= max.

(** The sum of the lengths of the strings of a list. *)
Definition total_len (l : list pystr) : Z :=
  fold_right (fun x acc => len x + acc) 0 l.

(** The source pages copied into an output document, with their indices,
    in the order of the document. *)
Definition copies {image} (out : list (out_page image))
  : list (nat * src_page image) :=
  flat_map (fun pg => match pg with
                      | Copied i p => [(i, p)]
                      | Generated _ _ _ _ _ _ => []
                      end) out.

(** The messages a run sent to the user: its events without the calls to
    the translation service. *)
Definition is_reply {image} (ev : event image) : bool :=
  match ev with Translate _ => false | _ => true end.

Definition replies {image} (evs : list (event image)) : list (event image) :=
  filter is_reply evs.

(** What the pipeline sends to the translation service at the limit of
    3500: a chunk within the limit. *)
Definition pipeline_event {image} (ev : event image) : Prop :=
  exists c, ev = Translate c /\ len c <= 3500.

(** * Properties *)

(** ** Trimming and line splitting *)

Lemma truthy_false (s : pystr) : truthy s = false <-> s = [].
Proof. destruct s; simpl; split; congruence. Qed.

Lemma truthy_true (s : pystr) : truthy s = true <-> s <> [].
Proof. destruct s; simpl; split; congruence. Qed.

Lemma linebreak_isspace (c : char) : is_linebreak c = true -> isspace c = true.
Proof.
  unfold is_linebreak, isspace, in_range.
  rewrite !orb_true_iff, !andb_true_iff, !N.leb_le, !N.eqb_eq. lia.
Qed.

Lemma length_lstrip (s : pystr) : (length (lstrip s) <= length s)%nat.
Proof.
  induction s as [|c s IH]; simpl; [lia|].
  destruct (isspace c); simpl; lia.
Qed.

Lemma length_rstrip (s : pystr) : (length (rstrip s) <= length s)%nat.
Proof.
  induction s as [|c s IH]; simpl; [lia|].
  destruct (rstrip s); [destruct (isspace c)|]; simpl in *; lia.
Qed.

Lemma len_strip (s : pystr) : len (strip s) <= len s.
Proof.
  unfold len, strip.
  pose proof (length_rstrip (lstrip s)). pose proof (length_lstrip s). lia.
Qed.

Lemma nonspace_lstrip (s : pystr) : nonspace (lstrip s) = nonspace s.
Proof.
  induction s as [|c s IH]; simpl; [reflexivity|].
  destruct (isspace c) eqn:E; simpl; [exact IH | now rewrite E].
Qed.

Lemma nonspace_cons (c : char) (s : pystr) :
  nonspace (c :: s) = if isspace c then nonspace s else c :: nonspace s.
Proof. unfold nonspace; simpl. now destruct (isspace c). Qed.

Lemma nonspace_rstrip (s : pystr) : nonspace (rstrip s) = nonspace s.
Proof.
  induction s as [|c s IH]; [reflexivity|].
  simpl rstrip. rewrite (nonspace_cons c s), <- IH.
  destruct (rstrip s) as [|r rs].
  - destruct (isspace c) eqn:E; [reflexivity|].
    now rewrite nonspace_cons, E.
  - now rewrite nonspace_cons.
Qed.

Lemma nonspace_strip (s : pystr) : nonspace (strip s) = nonspace s.
Proof. unfold strip. now rewrite nonspace_rstrip, nonspace_lstrip. Qed.

Lemma nonspace_app (s t : pystr) : nonspace (s ++ t) = nonspace s ++ nonspace t.
Proof. apply filter_app. Qed.

Lemma lstrip_nil (s : pystr) : lstrip s = [] <-> nonspace s = [].
Proof.
  induction s as [|c s IH]; simpl; [tauto|].
  destruct (isspace c); simpl; [exact IH | split; discriminate].
Qed.

Lemma rstrip_nil (s : pystr) : rstrip s = [] <-> nonspace s = [].
Proof.
  induction s as [|c s IH]; simpl; [tauto|].
  destruct (rstrip s) as [|r rs].
  - destruct (isspace c); simpl; [tauto | split; discriminate].
  - destruct (isspace c); simpl; split; try discriminate.
    intros H. apply IH in H. discriminate.
Qed.

Lemma strip_nil (s : pystr) : strip s = [] <-> nonspace s = [].
Proof. unfold strip. now rewrite rstrip_nil, nonspace_lstrip. Qed.

Lemma blank_true (s : pystr) : blank s = true <-> nonspace s = [].
Proof.
  unfold blank. rewrite negb_true_iff, truthy_false. apply strip_nil.
Qed.

Lemma nonspace_forallb (s : pystr) :
  nonspace s = [] <-> forallb isspace s = true.
Proof.
  induction s as [|c s IH]; simpl; [tauto|].
  destruct (isspace c); simpl; [exact IH | split; discriminate].
Qed.

Lemma lstrip_app (s t : pystr) :
  lstrip (s ++ t) = match lstrip s with [] => lstrip t | r => r ++ t end.
Proof.
  induction s as [|c s IH]; simpl; [now destruct (lstrip t)|].
  destruct (isspace c); [exact IH | reflexivity].
Qed.

Lemma rstrip_snoc_space (s : pystr) (c : char) :
  isspace c = true -> rstrip (s ++ [c]) = rstrip s.
Proof.
  intros Hc. induction s as [|a s IH]; simpl; [now rewrite Hc|].
  now rewrite IH.
Qed.

Lemma strip_snoc_space (s : pystr) (c : char) :
  isspace c = true -> strip (s ++ [c]) = strip s.
Proof.
  intros Hc. unfold strip. rewrite lstrip_app.
  destruct (lstrip s) as [|r rs] eqn:E.
  - simpl. now rewrite Hc.
  - now rewrite rstrip_snoc_space.
Qed.

Lemma lstrip_rstrip (s : pystr) : lstrip (rstrip s) = rstrip (lstrip s).
Proof.
  induction s as [|c s IH]; [reflexivity|].
  destruct (isspace c) eqn:E.
  - simpl. rewrite E. rewrite <- IH.
    destruct (rstrip s); simpl; rewrite ?E; reflexivity.
  - replace (lstrip (c :: s)) with (c :: s) by (simpl; now rewrite E).
    simpl rstrip.
    destruct (rstrip s); rewrite ?E; simpl; rewrite ?E; reflexivity.
Qed.

Lemma lstrip_idem (s : pystr) : lstrip (lstrip s) = lstrip s.
Proof.
  induction s as [|c s IH]; simpl; [reflexivity|].
  destruct (isspace c) eqn:E; [exact IH | simpl; now rewrite E].
Qed.

Lemma rstrip_idem (s : pystr) : rstrip (rstrip s) = rstrip s.
Proof.
  induction s as [|c s IH]; simpl; [reflexivity|].
  destruct (rstrip s) as [|r rs] eqn:R.
  - destruct (isspace c) eqn:E; simpl; now rewrite ?E.
  - change (rstrip (c :: r :: rs)) with
      (match rstrip (r :: rs) with
       | [] => if isspace c then [] else [c]
       | x => c :: x end).
    now rewrite IH.
Qed.

Lemma strip_idem (s : pystr) : strip (strip s) = strip s.
Proof.
  unfold strip. now rewrite lstrip_rstrip, lstrip_idem, rstrip_idem.
Qed.

Lemma rstrip_last (s : pystr) :
  rstrip s <> [] -> exists t c, rstrip s = t ++ [c] /\ isspace c = false.
Proof.
  induction s as [|a s IH]; simpl; [congruence|].
  destruct (rstrip s) as [|r rs] eqn:R.
  - destruct (isspace a) eqn:E; [congruence|].
    intros _. now exists [], a.
  - intros _. destruct IH as (t & c & Ht & Hc); [congruence|].
    exists (a :: t), c. simpl. now rewrite Ht.
Qed.

Lemma strip_last (s : pystr) :
  strip s <> [] -> exists t c, strip s = t ++ [c] /\ isspace c = false.
Proof. apply rstrip_last. Qed.

(** The three ways [splitlines] consumes a character. *)
Lemma splitlines_CRLF (s : pystr) :
  splitlines (CR :: LF :: s) = [] :: splitlines s.
Proof. reflexivity. Qed.

Lemma splitlines_char (c : char) (s : pystr) :
  is_linebreak c = false ->
  splitlines (c :: s) =
  match splitlines s with [] => [[c]] | l :: ls => (c :: l) :: ls end.
Proof.
  intros H. simpl. destruct (N.eqb_spec c CR) as [->|_]; [discriminate H|].
  now rewrite H.
Qed.

(** Induction following the recursion of [splitlines]. *)
Lemma splitlines_ind (P : pystr -> list pystr -> Prop) :
  P [] [] ->
  (forall s, P s (splitlines s) -> P (CR :: LF :: s) ([] :: splitlines s)) ->
  (forall c s, is_linebreak c = true -> P s (splitlines s) ->
               splitlines (c :: s) = [] :: splitlines s ->
               P (c :: s) ([] :: splitlines s)) ->
  (forall c s, is_linebreak c = false -> P s (splitlines s) ->
               P (c :: s)
                 (match splitlines s with
                  | [] => [[c]] | l :: ls => (c :: l) :: ls end)) ->
  forall s, P s (splitlines s).
Proof.
  intros Hnil Hcrlf Hbrk Hchr.
  assert (H : forall n s, (length s <= n)%nat -> P s (splitlines s)).
  { induction n as [|n IH]; intros [|c s] Hl; simpl in Hl; try exact Hnil;
      [lia|].
    destruct (is_linebreak c) eqn:Eb.
    - destruct (N.eqb_spec c CR) as [->|Hcr].
      + destruct s as [|c' s'].
        * apply (Hbrk CR []); auto.
        * destruct (N.eqb_spec c' LF) as [->|Hlf].
          -- apply Hcrlf. apply IH. simpl in Hl. lia.
          -- assert (E : splitlines (CR :: c' :: s')
                         = [] :: splitlines (c' :: s')).
             { simpl. now destruct (N.eqb_spec c' LF). }
             rewrite E. apply Hbrk; auto. apply IH. lia.
      + assert (E : splitlines (c :: s) = [] :: splitlines s).
        { simpl. destruct (N.eqb_spec c CR); [contradiction|].
          now rewrite Eb. }
        rewrite E. apply Hbrk; auto. apply IH. lia.
    - rewrite splitlines_char by exact Eb. apply Hchr; auto. apply IH. lia. }
  intros s. apply (H (length s)). lia.
Qed.

Lemma nonbreak_cons (c : char) (s : pystr) :
  nonbreak (c :: s) = if is_linebreak c then nonbreak s else c :: nonbreak s.
Proof. unfold nonbreak; simpl. now destruct (is_linebreak c). Qed.

(** The lines hold exactly the characters that are not line boundaries. *)
Lemma concat_splitlines (s : pystr) : concat (splitlines s) = nonbreak s.
Proof.
  apply (splitlines_ind (fun s ls => concat ls = nonbreak s)).
  - reflexivity.
  - intros t IH. simpl. exact IH.
  - intros c t Hc IH _. rewrite nonbreak_cons, Hc. exact IH.
  - intros c t Hc IH. rewrite nonbreak_cons, Hc, <- IH.
    now destruct (splitlines t).
Qed.

Lemma splitlines_breakfree (s : pystr) : Forall breakfree (splitlines s).
Proof.
  apply (splitlines_ind (fun _ ls => Forall breakfree ls)).
  - constructor.
  - intros t IH. constructor; [intros c []|exact IH].
  - intros c t _ IH _. constructor; [intros x []|exact IH].
  - intros c t Hc IH. destruct (splitlines t) as [|l ls].
    + constructor; [|constructor]. intros x [<-|[]]. exact Hc.
    + inversion IH as [|? ? Hl Hls]; subst. constructor; [|exact Hls].
      intros x [<-|Hx]; [exact Hc | now apply Hl].
Qed.

Lemma nonspace_nonbreak (s : pystr) : nonspace (nonbreak s) = nonspace s.
Proof.
  induction s as [|c s IH]; [reflexivity|].
  rewrite nonbreak_cons. destruct (is_linebreak c) eqn:E.
  - rewrite nonspace_cons, (linebreak_isspace c E). exact IH.
  - rewrite !nonspace_cons, IH. reflexivity.
Qed.

(** When the text ends with a character that is no boundary, that character
    ends the last line. *)
Lemma splitlines_snoc (s : pystr) (c : char) :
  is_linebreak c = false ->
  exists ls l, splitlines (s ++ [c]) = ls ++ [l ++ [c]].
Proof.
  intros Hc.
  apply (splitlines_ind
           (fun s _ => exists ls l, splitlines (s ++ [c]) = ls ++ [l ++ [c]])).
  - exists [], []. simpl app. rewrite splitlines_char by exact Hc. reflexivity.
  - intros t (ls & l & IH). exists ([] :: ls), l.
    change ((CR :: LF :: t) ++ [c]) with (CR :: LF :: (t ++ [c])).
    now rewrite splitlines_CRLF, IH.
  - intros a t Ha (ls & l & IH) Heq. exists ([] :: ls), l.
    assert (E : splitlines ((a :: t) ++ [c]) = [] :: splitlines (t ++ [c])).
    { destruct (N.eqb_spec a CR) as [->|Hna].
      - destruct t as [|c' t'].
        + simpl. destruct (N.eqb_spec c LF) as [->|_]; [discriminate Hc|].
          reflexivity.
        + destruct (N.eqb_spec c' LF) as [->|Hlf].
          * exfalso. rewrite splitlines_CRLF in Heq.
            apply (f_equal (@length _)) in Heq. simpl in Heq. lia.
          * simpl. destruct (N.eqb_spec c' LF); [contradiction|].
            reflexivity.
      - simpl. destruct (N.eqb_spec a CR); [contradiction|]. now rewrite Ha. }
    rewrite E, IH. reflexivity.
  - intros a t Ha (ls & l & IH).
    change ((a :: t) ++ [c]) with (a :: (t ++ [c])).
    rewrite splitlines_char by exact Ha. rewrite IH.
    destruct ls as [|l0 ls]; simpl.
    + now exists [], (a :: l).
    + now exists ((a :: l0) :: ls), l.
Qed.

(** ** The Page Paginator *)

Lemma unlines_app (g h : list pystr) : unlines (g ++ h) = unlines g ++ unlines h.
Proof. unfold unlines. now rewrite map_app, concat_app. Qed.

Lemma unlines_one (l : pystr) : unlines [l] = l ++ [LF].
Proof. unfold unlines. simpl. now rewrite app_nil_r. Qed.

Lemma nonspace_unlines (g : list pystr) :
  nonspace (unlines g) = nonspace (concat g).
Proof.
  induction g as [|l g IH]; [reflexivity|].
  change (unlines (l :: g)) with ((l ++ [LF]) ++ unlines g).
  simpl concat. rewrite !nonspace_app, IH. f_equal.
  change (nonspace [LF]) with (@nil char). apply app_nil_r.
Qed.

Lemma split_step_fits (max : Z) (pages : list pystr) (buf line : pystr) :
  len buf + len line + 1 <= max ->
  split_step max (pages, buf) line = (pages, buf ++ line ++ [LF]).
Proof. intros H. unfold split_step. now destruct (Z.leb_spec (len buf + len line + 1) max); [|lia]. Qed.

Lemma split_step_flush (max : Z) (pages : list pystr) (buf line : pystr) :
  max < len buf + len line + 1 ->
  split_step max (pages, buf) line = (pages ++ [strip buf], line ++ [LF]).
Proof. intros H. unfold split_step. now destruct (Z.leb_spec (len buf + len line + 1) max); [lia|]. Qed.

(** The loop keeps every line whole: the pages flushed so far and the buffer
    are consecutive groups of the lines read. *)
Lemma fold_split_groups (max : Z) (lines : list pystr) :
  forall (pages : list pystr) (g0 : list pystr) pages' buf',
    fold_left (split_step max) lines (pages, unlines g0) = (pages', buf') ->
    exists gs g',
      pages' = pages ++ map page_of_lines gs /\ buf' = unlines g' /\
      concat gs ++ g' = g0 ++ lines.
Proof.
  induction lines as [|l ls IH]; intros pages g0 pages' buf' H; cbn [fold_left] in H.
  - inversion H; subst. exists [], g0. now rewrite !app_nil_r.
  - destruct (Z.leb_spec (len (unlines g0) + len l + 1) max) as [Hf|Hf].
    + rewrite split_step_fits in H by exact Hf.
      replace (unlines g0 ++ l ++ [LF]) with (unlines (g0 ++ [l])) in H
        by now rewrite unlines_app, unlines_one.
      destruct (IH _ _ _ _ H) as (gs & g' & -> & -> & E).
      exists gs, g'. rewrite E, <- app_assoc. auto.
    + rewrite split_step_flush in H by exact Hf.
      rewrite <- unlines_one in H.
      destruct (IH _ _ _ _ H) as (gs & g' & -> & -> & E).
      exists (g0 :: gs), g'. simpl. rewrite <- !app_assoc, E. auto.
Qed.

(** After at least one round the buffer ends with the last line read. *)
Lemma fold_split_last (max : Z) (lines : list pystr) :
  forall pages buf pages' buf' l,
    fold_left (split_step max) (lines ++ [l]) (pages, buf) = (pages', buf') ->
    exists b, buf' = b ++ l ++ [LF].
Proof.
  intros pages buf pages' buf' l. rewrite fold_left_app. simpl.
  destruct (fold_left (split_step max) lines (pages, buf)) as [p b].
  unfold split_step.
  destruct (len b + len l + 1 <=? max); intros H; inversion H; subst.
  - now exists b.
  - now exists [].
Qed.

(** No character other than white space is lost or repeated by the loop. *)
Lemma fold_split_content (max : Z) (lines : list pystr) :
  forall pages buf pages' buf',
    fold_left (split_step max) lines (pages, buf) = (pages', buf') ->
    nonspace (concat pages' ++ buf')
    = nonspace (concat pages ++ buf) ++ nonspace (concat lines).
Proof.
  induction lines as [|l ls IH]; intros pages buf pages' buf' H; cbn [fold_left] in H.
  - inversion H; subst. simpl. now rewrite app_nil_r.
  - destruct (Z.leb_spec (len buf + len l + 1) max) as [Hf|Hf];
      [rewrite split_step_fits in H by exact Hf
      |rewrite split_step_flush in H by exact Hf];
      apply IH in H; rewrite H;
      simpl concat; rewrite ?concat_app; simpl concat;
      rewrite !nonspace_app, ?nonspace_strip, <- ?app_assoc;
      change (nonspace [LF]) with (@nil char); simpl; reflexivity.
Qed.

Lemma split_for_pdf_short (text : pystr) (max : Z) :
  len (strip text) <= max -> split_for_pdf text max = [strip text].
Proof.
  intros H. unfold split_for_pdf.
  destruct (Z.leb_spec (len (strip text)) max); [|lia].
  now destruct (strip text).
Qed.

Lemma split_for_pdf_long (text : pystr) (max : Z) :
  max < len (strip text) ->
  split_for_pdf text max =
  let (pages, buf) :=
    fold_left (split_step max) (splitlines (strip text)) ([], []) in
  if truthy (strip buf) then pages ++ [strip buf] else pages.
Proof.
  intros H. unfold split_for_pdf.
  now destruct (Z.leb_spec (len (strip text)) max); [lia|].
Qed.

Lemma split_for_pdf_content (text : pystr) (max : Z) :
  nonspace (concat (split_for_pdf text max)) = nonspace text.
Proof.
  destruct (Z.leb_spec (len (strip text)) max) as [Hs|Hl].
  - rewrite split_for_pdf_short by exact Hs. simpl.
    now rewrite app_nil_r, nonspace_strip.
  - rewrite split_for_pdf_long by exact Hl.
    destruct (fold_left _ _ _) as [pages buf] eqn:F.
    apply fold_split_content in F. simpl in F.
    rewrite concat_splitlines, nonspace_nonbreak, nonspace_strip in F.
    rewrite <- F, nonspace_app.
    destruct (truthy (strip buf)) eqn:T.
    + rewrite concat_app, nonspace_app. simpl.
      now rewrite app_nil_r, nonspace_strip.
    + apply truthy_false, strip_nil in T. now rewrite T, app_nil_r.
Qed.

Lemma len_app (s t : pystr) : len (s ++ t) = len s + len t.
Proof. unfold len. rewrite length_app. lia. Qed.

Lemma len_nonneg (s : pystr) : 0 <= len s.
Proof. unfold len. lia. Qed.

Lemma nonspace_snoc_nonnil (s t : pystr) (c : char) :
  isspace c = false -> nonspace (s ++ c :: t) <> [].
Proof.
  intros Hc H. rewrite nonspace_app, nonspace_cons, Hc in H.
  now apply app_eq_nil in H as [_ H].
Qed.

(** A trimmed, non-empty text ends inside its last line, so the buffer left
    by the loop is never blank. *)
Lemma final_buf_nonblank (text : pystr) (max : Z) pages buf :
  strip text <> [] ->
  fold_left (split_step max) (splitlines (strip text)) ([], []) = (pages, buf) ->
  truthy (strip buf) = true.
Proof.
  intros Hne F.
  destruct (strip_last text Hne) as (t & c & Ht & Hc).
  assert (Hb : is_linebreak c = false).
  { destruct (is_linebreak c) eqn:E; [|reflexivity].
    apply linebreak_isspace in E. congruence. }
  destruct (splitlines_snoc t c Hb) as (ls & l & Hls).
  rewrite Ht, Hls in F. apply fold_split_last in F as (b & ->).
  apply truthy_true. rewrite strip_nil.
  rewrite <- !app_assoc. rewrite (app_assoc b l). apply nonspace_snoc_nonnil, Hc.
Qed.

Lemma strip_buf_bound (max : Z) (buf : pystr) :
  buf_ok max buf -> 0 <= max -> len (strip buf) <= max.
Proof.
  intros [->|(b & -> & Hb)] Hmax; [exact Hmax|].
  rewrite strip_snoc_space by reflexivity.
  pose proof (len_strip b). lia.
Qed.

Lemma fold_split_bound (max : Z) (lines : list pystr) :
  (forall l, In l lines -> len l <= max) ->
  forall pages buf pages' buf',
    Forall (fun p => len p <= max) pages -> buf_ok max buf ->
    fold_left (split_step max) lines (pages, buf) = (pages', buf') ->
    Forall (fun p => len p <= max) pages' /\ buf_ok max buf'.
Proof.
  induction lines as [|l ls IH]; intros Hl pages buf pages' buf' Hp Hb F;
    cbn [fold_left] in F.
  - inversion F; subst. auto.
  - assert (Hlen : len l <= max) by (apply Hl; now left).
    pose proof (len_nonneg l) as Hl0.
    assert (Hls : forall x, In x ls -> len x <= max)
      by (intros x Hx; apply Hl; now right).
    destruct (Z.leb_spec (len buf + len l + 1) max) as [Hf|Hf].
    + rewrite split_step_fits in F by exact Hf.
      apply (IH Hls) in F; auto.
      right. exists (buf ++ l). rewrite <- app_assoc, len_app. split; [auto|lia].
    + rewrite split_step_flush in F by exact Hf.
      apply (IH Hls) in F; auto.
      * apply Forall_app. split; [exact Hp|].
        constructor; [|constructor]. apply strip_buf_bound; [exact Hb|lia].
      * right. now exists l.
Qed.

(** C2 (counterexample).  With capacity 3 the two lines "a" and "  b" go to
    two pages; trimming the second page removes the indentation of "  b",
    which is no separator: two characters of the input are lost. *)
Lemma split_for_pdf_loses_indentation :
  split_for_pdf (lit "a" ++ [LF] ++ lit "  b") 3 = [lit "a"; lit "b"] /\
  ~ reconstructs_input (lit "a" ++ [LF] ++ lit "  b") 3.
Proof.
  split; [reflexivity|]. unfold reconstructs_input. vm_compute. discriminate.
Qed.

Lemma nonbreak_app (s t : pystr) : nonbreak (s ++ t) = nonbreak s ++ nonbreak t.
Proof. apply filter_app. Qed.

Lemma nonbreak_idem (s : pystr) : nonbreak (nonbreak s) = nonbreak s.
Proof.
  induction s as [|c s IH]; [reflexivity|]. rewrite nonbreak_cons.
  destruct (is_linebreak c) eqn:E; [exact IH|].
  now rewrite nonbreak_cons, E, IH.
Qed.

Lemma nonbreak_unlines (g : list pystr) :
  nonbreak (unlines g) = nonbreak (concat g).
Proof.
  induction g as [|l g IH]; [reflexivity|].
  change (unlines (l :: g)) with ((l ++ [LF]) ++ unlines g).
  simpl concat. rewrite !nonbreak_app, IH. f_equal.
  change (nonbreak [LF]) with (@nil char). apply app_nil_r.
Qed.

Lemma concat_map_unlines (groups : list (list pystr)) :
  concat (map unlines groups) = unlines (concat groups).
Proof.
  induction groups as [|g gs IH]; [reflexivity|].
  simpl. now rewrite unlines_app, IH.
Qed.

(** Beyond the capacity, the pages are consecutive groups of the lines of
    the trimmed text, each group trimmed; no group is dropped. *)
Lemma split_for_pdf_groups (text : pystr) (max_chars : Z) :
  max_chars < len (strip text) ->
  exists groups,
    concat groups = splitlines (strip text) /\
    split_for_pdf text max_chars = map page_of_lines groups.
Proof.
  intros Hl. rewrite split_for_pdf_long by exact Hl.
  destruct (fold_left _ _ _) as [pages buf] eqn:F.
  destruct (strip text) as [|c0 t0] eqn:Et.
  - simpl in F. inversion F; subst. now exists [].
  - assert (Hne : strip text <> []) by (rewrite Et; discriminate).
    rewrite <- Et in F.
    rewrite (final_buf_nonblank text max_chars pages buf Hne F).
    apply (fold_split_groups max_chars _ [] []) in F
      as (gs & g' & -> & -> & E).
    exists (gs ++ [g']). rewrite concat_app, map_app. simpl.
    rewrite app_nil_r. rewrite Et in E. split; [exact E|reflexivity].
Qed.

(** C2 (amended).  For every input and every capacity, the pages
    reconstruct the trimmed input up to the white space trimmed off the
    two ends of each page.  The trimmed input (when it fits the capacity)
    or else its lines, each ended by a newline, is cut into consecutive
    segments, and each page is one segment, trimmed, in order.  So,
    separators aside, the segments put end to end are the trimmed input:
    nothing is duplicated, and nothing is lost but the white space at the
    ends of the input and of the pages. *)
Theorem split_for_pdf_reconstructs (text : pystr) (max_chars : Z) :
  exists segments,
    split_for_pdf text max_chars = map strip segments /\
    concat segments
    = (if len (strip text) <=? max_chars then strip text
       else unlines (splitlines (strip text))) /\
    nonbreak (concat segments) = nonbreak (strip text) /\
    nonspace (concat (split_for_pdf text max_chars)) = nonspace text.
Proof.
  destruct (Z.leb_spec (len (strip text)) max_chars) as [Hs|Hl].
  - exists [strip text]. rewrite split_for_pdf_short by exact Hs.
    simpl. rewrite strip_idem, !app_nil_r. repeat split.
    apply nonspace_strip.
  - destruct (split_for_pdf_groups text max_chars Hl) as (groups & Hg & Hp).
    exists (map unlines groups). rewrite concat_map_unlines, Hg.
    repeat split.
    + rewrite Hp, map_map. reflexivity.
    + now rewrite nonbreak_unlines, concat_splitlines, nonbreak_idem.
    + apply split_for_pdf_content.
Qed.

(** C3 (counterexample).  The single line "abcdefg" exceeds capacity 3 and
    is not wrapped: an empty page is flushed first and the whole line lands
    on the second page. *)
Lemma split_for_pdf_does_not_wrap :
  split_for_pdf (lit "abcdefg") 3 = [[]; lit "abcdefg"] /\
  ~ wraps_long_lines (lit "abcdefg") 3.
Proof.
  split; [reflexivity|]. intros H.
  destruct (H (lit "abcdefg")) as
    (before & p1 & p2 & after & pre & c & post & Hp & _ & Hne & (u & Hu) & _).
  - vm_compute. auto.
  - vm_compute. reflexivity.
  - change (split_for_pdf (lit "abcdefg") 3) with [[]; lit "abcdefg"] in Hp.
    destruct before as [|b0 [|b1 before]]; simpl in Hp.
    + injection Hp as E1 _ _. rewrite <- E1 in Hu. symmetry in Hu.
      apply app_eq_nil in Hu as [_ Hu]. contradiction.
    + inversion Hp.
    + inversion Hp as [[E0 E1 E2]]. destruct before; discriminate E2.
Qed.

(** C3 (amended).  The paginator splits only at line boundaries and never
    inside a line, however long the line is: a text within the capacity is
    one page; otherwise the lines of the trimmed text are cut into
    consecutive groups and each page is one group, its lines ended by a
    newline, trimmed.  Hence every page is within the capacity as soon as
    no line of the trimmed text exceeds it. *)
Theorem split_for_pdf_whole_lines (text : pystr) (max_chars : Z) :
  let lines := splitlines (strip text) in
  (len (strip text) <= max_chars ->
     split_for_pdf text max_chars = [strip text]) /\
  (max_chars < len (strip text) ->
     exists groups,
       concat groups = lines /\
       split_for_pdf text max_chars = map page_of_lines groups) /\
  ((forall line, In line lines -> len line <= max_chars) ->
     Forall (fun page => len page <= max_chars)
            (split_for_pdf text max_chars)).
Proof.
  intros lines. split; [apply split_for_pdf_short|]. split.
  - intros Hl. rewrite split_for_pdf_long by exact Hl. fold lines.
    destruct (fold_left _ _ _) as [pages buf] eqn:F.
    destruct (strip text) as [|c0 t0] eqn:Et.
    + subst lines. simpl in F. inversion F; subst. now exists [].
    + assert (Hne : strip text <> []) by (rewrite Et; discriminate).
      subst lines. rewrite <- Et in F.
      rewrite (final_buf_nonblank text max_chars pages buf Hne F).
      apply (fold_split_groups max_chars _ [] []) in F
        as (gs & g' & -> & -> & E).
      exists (gs ++ [g']). rewrite concat_app, map_app. simpl.
      rewrite app_nil_r. rewrite Et in E. split; [exact E|reflexivity].
  - intros Hb. destruct (Z.leb_spec (len (strip text)) max_chars) as [Hs|Hl].
    + rewrite split_for_pdf_short by exact Hs. constructor; auto.
    + rewrite split_for_pdf_long by exact Hl. fold lines.
      destruct (fold_left _ _ _) as [pages buf] eqn:F.
      apply (fold_split_bound max_chars lines Hb) in F as [Hp Hbuf];
        [|constructor|now left].
      destruct (truthy (strip buf)) eqn:T; [|exact Hp].
      apply Forall_app. split; [exact Hp|]. constructor; [|constructor].
      destruct Hbuf as [->|(b & -> & Hlen)]; [discriminate T|].
      rewrite strip_snoc_space by reflexivity.
      pose proof (len_strip b). lia.
Qed.

Lemma split_for_pdf_whole_lines_witness :
  split_for_pdf (lit "ab" ++ [LF] ++ lit "cd") 3 = [lit "ab"; lit "cd"] /\
  Forall (fun page => len page <= 3)
         (split_for_pdf (lit "ab" ++ [LF] ++ lit "cd") 3).
Proof.
  split; [reflexivity|].
  apply (split_for_pdf_whole_lines (lit "ab" ++ [LF] ++ lit "cd") 3).
  intros line H. vm_compute in H.
  destruct H as [<-|[<-|[]]]; vm_compute; discriminate.
Defined.

(** The paginator never returns an empty sequence, for a capacity that is
    not negative. *)
Lemma split_for_pdf_at_least_one (text : pystr) (max_chars : Z) :
  0 <= max_chars -> (1 <= length (split_for_pdf text max_chars))%nat.
Proof.
  intros Hmax.
  destruct (Z.leb_spec (len (strip text)) max_chars) as [Hs|Hl].
  - rewrite split_for_pdf_short by exact Hs. simpl. lia.
  - pose proof (split_for_pdf_content text max_chars) as C.
    destruct (split_for_pdf text max_chars); [|simpl; lia].
    exfalso. simpl in C. symmetry in C. apply strip_nil in C.
    rewrite C in Hl. unfold len in Hl. simpl in Hl. lia.
Qed.

(** C8.  For a positive capacity the paginator returns at least one page,
    and for an empty or white-space-only input exactly one empty page. *)
Theorem split_for_pdf_nonempty (text : pystr) (max_chars : Z) :
  0 < max_chars ->
  (1 <= length (split_for_pdf text max_chars))%nat /\
  (forallb isspace text = true -> split_for_pdf text max_chars = [[]]).
Proof.
  intros Hmax. split.
  - apply split_for_pdf_at_least_one. lia.
  - intros Hw. apply nonspace_forallb, strip_nil in Hw.
    rewrite split_for_pdf_short; rewrite Hw; [reflexivity|].
    unfold len. simpl. lia.
Qed.

Lemma split_for_pdf_nonempty_witness :
  (1 <= length (split_for_pdf (lit "   ") 2600))%nat /\
  split_for_pdf (lit "   ") 2600 = [[]].
Proof.
  destruct (split_for_pdf_nonempty (lit "   ") 2600) as [H1 H2].
  - lia.
  - split; [exact H1|]. apply H2. reflexivity.
Defined.

(** ** The RTL Text Shaper *)

Lemma splitlines_one (x : pystr) :
  breakfree x -> x <> [] -> splitlines x = [x].
Proof.
  induction x as [|c x IH]; intros Hb Hne; [contradiction|].
  rewrite splitlines_char by (apply Hb; now left).
  destruct x as [|c' x']; [reflexivity|].
  rewrite IH; [reflexivity| |discriminate].
  intros a Ha. apply Hb. now right.
Qed.

Lemma splitlines_app_LF (x t : pystr) :
  breakfree x -> splitlines (x ++ LF :: t) = x :: splitlines t.
Proof.
  induction x as [|c x IH]; intros Hb; [reflexivity|].
  change ((c :: x) ++ LF :: t) with (c :: (x ++ LF :: t)).
  rewrite splitlines_char by (apply Hb; now left).
  rewrite IH; [reflexivity|]. intros a Ha. apply Hb. now right.
Qed.

(** Splitting what [join] built gives the lines back, provided no line
    holds a boundary and the last one is not empty. *)
Lemma splitlines_join (ls : list pystr) :
  Forall breakfree ls -> (ls = [] \/ last ls [] <> []) ->
  splitlines (join [LF] ls) = ls.
Proof.
  induction ls as [|x ls IH]; intros Hb Hlast; [reflexivity|].
  inversion Hb as [|? ? Hx Hls]; subst.
  destruct ls as [|y ls].
  - simpl. apply splitlines_one; [exact Hx|].
    destruct Hlast as [H|H]; [discriminate H|exact H].
  - change (join [LF] (x :: y :: ls)) with (x ++ LF :: join [LF] (y :: ls)).
    rewrite splitlines_app_LF by exact Hx. f_equal. apply IH; [exact Hls|].
    right. destruct Hlast as [H|H]; [discriminate H|exact H].
Qed.

Lemma last_map {A B} (f : A -> B) (l : list A) (d : A) :
  l <> [] -> last (map f l) (f d) = f (last l d).
Proof.
  induction l as [|a l IH]; intros H; [contradiction|].
  destruct l as [|b l]; [reflexivity|].
  change (last (map f (a :: b :: l)) (f d)) with (last (map f (b :: l)) (f d)).
  change (last (a :: b :: l) d) with (last (b :: l) d).
  apply IH. discriminate.
Qed.

(** C4 (counterexample).  The input "a", newline, newline has the two lines
    "a" and "" ; the output is "a", newline, which has one line: joining
    with newlines leaves nothing after the last separator, so a blank last
    line disappears.  Counting the fields between newlines instead gives
    three for the input and two for the output. *)
Lemma prepare_arabic_drops_last_blank_line :
  let text := lit "a" ++ [LF; LF] in
  let out := prepare_arabic_for_pdf Demo.reshape Demo.get_display text in
  splitlines text = [lit "a"; []] /\ out = lit "a" ++ [LF] /\
  splitlines out = [lit "a"] /\
  ~ preserves_lines Demo.reshape Demo.get_display text /\
  length (split LF out) <> length (split LF text).
Proof.
  cbv zeta. repeat split; try reflexivity.
  - intros [H _]. vm_compute in H. discriminate.
  - vm_compute. discriminate.
Qed.

(** C4 (amended).  The shaper works line by line on the lines
    [splitlines] finds: it produces one output line per input line, the
    empty line for a blank one and the shaped line for any other, at the
    same index, and joins them with newlines.  Read back as a string, the
    output has those very lines, so the line count is preserved, when the
    last input line is not blank and shaping neither empties a line nor
    puts a line boundary into it. *)
Theorem prepare_arabic_line_by_line
  (reshape get_display : pystr -> pystr) (text : pystr) :
  let lines := splitlines text in
  let out_lines := map (shape_line reshape get_display) lines in
  prepare_arabic_for_pdf reshape get_display text = join [LF] out_lines /\
  length out_lines = length lines /\
  (forall i line,
      nth_error lines i = Some line ->
      nth_error out_lines i =
      Some (if blank line then [] else get_display (reshape line))) /\
  ((forall l, breakfree l -> blank l = false ->
              breakfree (get_display (reshape l)) /\
              get_display (reshape l) <> []) ->
   (lines = [] \/ blank (last lines []) = false) ->
   splitlines (prepare_arabic_for_pdf reshape get_display text) = out_lines).
Proof.
  intros lines out_lines. split; [reflexivity|]. split; [apply length_map|].
  split.
  - intros i line H. unfold out_lines. rewrite nth_error_map, H. reflexivity.
  - intros Hshape Hlast. unfold prepare_arabic_for_pdf. fold lines out_lines.
    pose proof (splitlines_breakfree text) as Hbf. fold lines in Hbf.
    apply splitlines_join.
    + unfold out_lines. apply Forall_map.
      apply (Forall_impl _ (P := breakfree)); [|exact Hbf].
      intros l Hl. unfold shape_line. fold (blank l).
      destruct (blank l) eqn:B; [intros c []|]. now apply Hshape.
    + destruct Hlast as [->|Hlast]; [now left|right].
      destruct lines as [|l0 ls] eqn:E; [discriminate Hlast|].
      unfold out_lines.
      assert (D : shape_line reshape get_display [] = [])
        by reflexivity.
      rewrite <- D at 1. rewrite last_map by discriminate.
      unfold shape_line. fold (blank (last (l0 :: ls) [])). rewrite Hlast.
      apply Hshape; [|exact Hlast].
      rewrite Forall_forall in Hbf. apply Hbf.
      destruct (exists_last (l := l0 :: ls)) as (l' & a & ->); [discriminate|].
      rewrite last_last. apply in_or_app. right. now left.
Qed.

Lemma prepare_arabic_line_by_line_witness :
  splitlines (prepare_arabic_for_pdf Demo.reshape Demo.get_display
                (lit "ab" ++ [LF; LF] ++ lit "cd"))
  = [lit "ba"; []; lit "dc"].
Proof.
  apply (prepare_arabic_line_by_line Demo.reshape Demo.get_display
           (lit "ab" ++ [LF; LF] ++ lit "cd")).
  - intros l Hb Hn. unfold Demo.get_display, Demo.reshape. split.
    + intros c Hc. apply Hb. now apply in_rev.
    + destruct l; [discriminate Hn|]. simpl. intros H.
      now apply app_eq_nil in H as [_ H].
  - right. reflexivity.
Defined.

(** ** The effect monad *)

Lemma bind_lift_inr {image A B} (a : A) (k : A -> Bot image B) :
  bind (lift (inr a)) k = k a.
Proof. unfold bind, lift. now destruct (k a). Qed.

Lemma bind_lift_inl {image A B} (e : exn) (k : A -> Bot image B) :
  bind (lift (inl e)) k = ([], inl e).
Proof. reflexivity. Qed.

Lemma events_bind {image A B} (m : Bot image A) (k : A -> Bot image B) ev :
  In ev (events (bind m k)) ->
  In ev (events m) \/ exists a, outcome m = inr a /\ In ev (events (k a)).
Proof.
  destruct m as [evs [e|a]]; simpl; [now left|].
  destruct (k a) as [evs' r] eqn:K. simpl. intros H.
  apply in_app_or in H as [H|H]; [now left|right].
  exists a. rewrite K. auto.
Qed.

Lemma outcome_bind {image A B} (m : Bot image A) (k : A -> Bot image B) :
  outcome (bind m k) =
  match outcome m with inl e => inl e | inr a => outcome (k a) end.
Proof.
  destruct m as [evs [e|a]]; simpl; [reflexivity|]. now destruct (k a).
Qed.

(** ** The Chunked Translator *)

Lemma In_lstrip (c : char) (s : pystr) : In c (lstrip s) -> In c s.
Proof.
  induction s as [|a s IH]; simpl; [tauto|].
  destruct (isspace a); simpl; tauto.
Qed.

Lemma In_rstrip (c : char) (s : pystr) : In c (rstrip s) -> In c s.
Proof.
  induction s as [|a s IH]; simpl; [tauto|].
  destruct (rstrip s) as [|r rs].
  - destruct (isspace a); simpl; tauto.
  - intros [H|H]; [now left|right; now apply IH].
Qed.

Lemma In_strip (c : char) (s : pystr) : In c (strip s) -> In c s.
Proof. intros H. now apply In_lstrip, In_rstrip. Qed.

Lemma split_no_sep (d : char) (s : pystr) : ~ In d s -> split d s = [s].
Proof.
  induction s as [|c s IH]; intros H; [reflexivity|]. simpl.
  destruct (N.eqb_spec c d) as [->|_]; [exfalso; apply H; now left|].
  rewrite IH; [reflexivity|]. intros Hd. apply H. now right.
Qed.

(** A text without newline is its own single paragraph, trimmed. *)
Lemma paragraphs_single (text : pystr) :
  ~ In LF text -> strip text <> [] ->
  paragraphs (strip text) = [strip text].
Proof.
  intros Hnl Hne. unfold paragraphs.
  rewrite split_no_sep by (intros H; apply Hnl; now apply In_strip).
  cbn [filter]. rewrite strip_idem.
  apply truthy_true in Hne. rewrite Hne. cbn [map]. now rewrite strip_idem.
Qed.

(** [range(i, stop, step)] holds [ceil((stop - i) / step)] indices. *)
Lemma range_loop_spec (step stop : Z) (fuel : nat) :
  0 < step ->
  forall i, stop - i <= Z.of_nat fuel ->
  range_loop fuel i stop step =
  map (fun k => i + Z.of_nat k * step)
      (seq 0 (Z.to_nat ((stop - i + step - 1) / step))).
Proof.
  intros Hs. induction fuel as [|fuel IH]; intros i Hf.
  - simpl. replace (Z.to_nat _) with 0%nat; [reflexivity|].
    assert ((stop - i + step - 1) / step < 1)
      by (apply Z.div_lt_upper_bound; lia). lia.
  - cbn [range_loop]. destruct (Z.ltb_spec i stop) as [Hlt|Hge].
    + rewrite IH by lia.
      replace (stop - i + step - 1) with ((stop - i - 1) + 1 * step) by ring.
      rewrite Z.div_add by lia.
      replace (stop - (i + step) + step - 1) with (stop - i - 1) by ring.
      assert (0 <= (stop - i - 1) / step) by (apply Z.div_pos; lia).
      rewrite Z2Nat.inj_add by lia.
      rewrite Nat.add_comm. simpl Nat.add. cbn [seq map].
      f_equal; [simpl; ring|].
      rewrite <- seq_shift, map_map. apply map_ext. intros k.
      rewrite Nat2Z.inj_succ. ring.
    + replace (Z.to_nat _) with 0%nat; [reflexivity|].
      assert ((stop - i + step - 1) / step < 1)
        by (apply Z.div_lt_upper_bound; lia). lia.
Qed.

Lemma hard_split_spec (p : pystr) (max : Z) :
  0 < max ->
  hard_split p max =
  inr (map (fun k => slice p (Z.of_nat k * max) (Z.of_nat k * max + max))
           (seq 0 (Z.to_nat ((len p + max - 1) / max)))).
Proof.
  intros Hm. unfold hard_split, py_range0.
  destruct (Z.eqb_spec max 0); [lia|].
  destruct (Z.ltb_spec 0 max); [|lia].
  rewrite range_loop_spec by (unfold len; lia).
  rewrite map_map. f_equal.
  replace (len p - 0 + max - 1) with (len p + max - 1) by ring.
  apply map_ext. intros k. reflexivity.
Qed.

Lemma len_slice_le (p : pystr) (i max : Z) :
  0 <= max -> len (slice p i (i + max)) <= max.
Proof.
  intros Hm. unfold slice, len. rewrite length_firstn.
  replace (i + max - i) with max by ring. lia.
Qed.

Lemma len_slice_full (p : pystr) (i max : Z) :
  0 <= i -> 0 <= max -> i + max <= len p -> len (slice p i (i + max)) = max.
Proof.
  intros Hi Hm Hl. unfold slice, len in *. rewrite length_firstn, length_skipn.
  replace (i + max - i) with max by ring. lia.
Qed.

Lemma chunk_step_bound (max : Z) chunks buf p chunks' buf' :
  0 < max -> Forall (bounded max) chunks -> len buf <= max ->
  chunk_step max (chunks, buf) p = inr (chunks', buf') ->
  Forall (bounded max) chunks' /\ len buf' <= max.
Proof.
  intros Hm Hc Hb. unfold chunk_step.
  destruct (Z.leb_spec (len buf + len p + 1) max) as [Hf|Hf].
  - intros H; inversion H; subst. split; [exact Hc|].
    pose proof (len_strip (buf ++ [LF] ++ p)) as L.
    unfold len in *. rewrite length_app in L. simpl length in L. lia.
  - assert (Hc1 : Forall (bounded max)
                    (if truthy buf then chunks ++ [buf] else chunks)).
    { destruct (truthy buf); [|exact Hc].
      apply Forall_app. split; [exact Hc|]. now constructor. }
    destruct (Z.leb_spec (len p) max) as [Hp|Hp].
    + intros H; inversion H; subst. auto.
    + rewrite hard_split_spec by exact Hm.
      intros H; inversion H; subst. split; [|unfold len; simpl; lia].
      apply Forall_app. split; [exact Hc1|].
      apply Forall_map, Forall_forall. intros k _.
      apply len_slice_le. lia.
Qed.

Lemma chunk_loop_bound (max : Z) (parts : list pystr) :
  0 < max ->
  forall chunks buf chunks' buf',
    Forall (bounded max) chunks -> len buf <= max ->
    chunk_loop max parts (chunks, buf) = inr (chunks', buf') ->
    Forall (bounded max) chunks' /\ len buf' <= max.
Proof.
  intros Hm. induction parts as [|p ps IH]; intros chunks buf chunks' buf' Hc Hb;
    cbn [chunk_loop].
  - intros H; inversion H; subst. auto.
  - destruct (chunk_step max (chunks, buf) p) as [e|[c1 b1]] eqn:S;
      [discriminate|].
    apply (chunk_step_bound max _ _ _ _ _ Hm Hc Hb) in S as [Hc1 Hb1].
    now apply IH.
Qed.

(** Every chunk of the packing step is within the limit. *)
Lemma make_chunks_bound (text : pystr) (max : Z) (chunks : list pystr) :
  0 < max -> make_chunks text max = inr chunks ->
  Forall (bounded max) chunks.
Proof.
  intros Hm. unfold make_chunks.
  destruct (chunk_loop max (paragraphs text) ([], [])) as [e|[cs buf]] eqn:L;
    [discriminate|].
  apply (chunk_loop_bound max _ Hm) in L as [Hc Hb];
    [|constructor|unfold len; simpl; lia].
  intros H; inversion H; subst.
  destruct (truthy buf); [|exact Hc].
  apply Forall_app. split; [exact Hc|]. now constructor.
Qed.

Section Translator.

Context {image : Type} (translator : pystr -> exn + pystr).

Lemma events_call_translator (c : pystr) :
  events (call_translator (image := image) translator c) = [Translate c].
Proof. reflexivity. Qed.

(** The translation loop calls the service on chunks only, and on nothing
    else. *)
Lemma events_mapM_translate (chunks : list pystr) (ev : event image) :
  In ev (events (mapM (call_translator (image := image) translator) chunks)) ->
  exists c, ev = Translate c /\ In c chunks.
Proof.
  induction chunks as [|a l IH]; cbn [mapM]; [intros []|].
  intros H. apply events_bind in H as [H|(b & _ & H)].
  - rewrite events_call_translator in H. destruct H as [<-|[]].
    exists a. split; [reflexivity|now left].
  - apply events_bind in H as [H|(bs & _ & [])].
    destruct (IH H) as (c & -> & Hc). exists c. split; [reflexivity|now right].
Qed.

Lemma events_translate_chunked (text : pystr) (max : Z) (ev : event image) :
  In ev (events (translate_chunked (image := image) translator text max)) ->
  exists chunks c,
    make_chunks (strip text) max = inr chunks /\ ev = Translate c /\
    In c chunks.
Proof.
  unfold translate_chunked.
  destruct (truthy (strip text)); cbn [negb]; [|intros []].
  destruct (make_chunks (strip text) max) as [e|chunks]; [intros []|].
  rewrite bind_lift_inr. intros H.
  apply events_bind in H as [H|(ts & _ & [])].
  apply events_mapM_translate in H as (c & -> & Hc). now exists chunks, c.
Qed.

(** C5.  A text without newline whose trimmed length exceeds a positive
    limit is one paragraph; the packing step cuts it into
    [ceil(len / max)] slices: slice [k] is [p[k*max : k*max + max]], every
    slice but the last holds exactly [max] characters, and the slices, in
    that order, are the chunks sent to the translator. *)
Theorem translate_chunked_hard_split (text : pystr) (max : Z) :
  0 < max -> ~ In LF text -> max < len (strip text) ->
  let p := strip text in
  let n := (len p + max - 1) / max in
  let slices :=
    map (fun k => slice p (Z.of_nat k * max) (Z.of_nat k * max + max))
        (seq 0 (Z.to_nat n)) in
  make_chunks p max = inr slices /\
  translate_chunked (image := image) translator text max =
    (translated <- mapM (call_translator translator) slices ;;
     ret (strip (join [LF; LF] translated))) /\
  Z.of_nat (length slices) = n /\
  (n - 1) * max < len p <= n * max /\
  (forall k c, nth_error slices k = Some c -> (S k < length slices)%nat ->
               len c = max).
Proof.
  intros Hm Hnl Hlong p n slices.
  assert (Hne : strip text <> []).
  { intros E. rewrite E in Hlong. unfold len in Hlong. simpl in Hlong. lia. }
  assert (Hn0 : 0 <= n) by (apply Z.div_pos; unfold p, len; lia).
  assert (Hlen : length slices = Z.to_nat n)
    by (unfold slices; now rewrite length_map, length_seq).
  assert (Hceil : (n - 1) * max < len p <= n * max).
  { pose proof (Z.mul_div_le (len p + max - 1) max Hm).
    pose proof (Z.mul_succ_div_gt (len p + max - 1) max Hm).
    fold n in H, H0. lia. }
  assert (Hchunks : make_chunks p max = inr slices).
  { unfold make_chunks, p. rewrite paragraphs_single by assumption.
    cbn [chunk_loop]. unfold chunk_step.
    change (len []) with 0.
    destruct (Z.leb_spec (0 + len (strip text) + 1) max); [lia|].
    cbn [truthy].
    destruct (Z.leb_spec (len (strip text)) max); [lia|].
    rewrite hard_split_spec by exact Hm. reflexivity. }
  split; [exact Hchunks|]. split.
  - unfold translate_chunked. apply truthy_true in Hne. rewrite Hne.
    cbn [negb]. fold p. rewrite Hchunks. now rewrite bind_lift_inr.
  - split; [rewrite Hlen; lia|]. split; [exact Hceil|].
    intros k c Hk Hlt. rewrite Hlen in Hlt. unfold slices in Hk.
    rewrite nth_error_map in Hk.
    rewrite (nth_error_nth' _ 0%nat) in Hk by (rewrite length_seq; lia).
    rewrite seq_nth in Hk by lia. simpl in Hk. inversion Hk; subst c.
    apply len_slice_full; nia.
Qed.

(** C6.  On an empty or white-space-only input the translator returns the
    empty string and performs no event at all: the translation service is
    not called. *)
Theorem translate_chunked_blank (text : pystr) (max : Z) :
  forallb isspace text = true ->
  translate_chunked (image := image) translator text max = ([], inr []).
Proof.
  intros H. apply nonspace_forallb, strip_nil in H.
  unfold translate_chunked. now rewrite H.
Qed.

(** C7.  For a positive limit, every chunk handed to the translation
    service is at most [max] characters long. *)
Theorem translate_chunked_bounded (text : pystr) (max : Z) (c : pystr) :
  0 < max ->
  In (Translate c)
     (events (translate_chunked (image := image) translator text max)) ->
  len c <= max.
Proof.
  intros Hm H.
  apply events_translate_chunked in H as (chunks & c' & Hc & E & Hin).
  inversion E; subst c'.
  apply make_chunks_bound in Hc; [|exact Hm].
  rewrite Forall_forall in Hc. now apply Hc.
Qed.

End Translator.

Lemma translate_chunked_hard_split_witness :
  make_chunks (lit "abcdefgh") 3 = inr [lit "abc"; lit "def"; lit "gh"].
Proof.
  apply (translate_chunked_hard_split (image := Demo.image)
           Demo.translator_echo (lit "abcdefgh") 3).
  - lia.
  - vm_compute. intuition discriminate.
  - vm_compute. reflexivity.
Defined.

Lemma translate_chunked_blank_witness :
  translate_chunked (image := Demo.image) Demo.translator_echo
    ([LF] ++ lit "  ") 3500 = ([], inr []).
Proof.
  apply (translate_chunked_blank Demo.translator_echo). reflexivity.
Defined.

Lemma translate_chunked_bounded_witness :
  events (translate_chunked (image := Demo.image) Demo.translator_echo
            (lit "ab" ++ [LF] ++ lit "cdefg") 3)
  = [Translate (lit "ab"); Translate (lit "cde"); Translate (lit "fg")] /\
  len (lit "cde") <= 3.
Proof.
  split; [reflexivity|].
  apply (translate_chunked_bounded (image := Demo.image)
           Demo.translator_echo (lit "ab" ++ [LF] ++ lit "cdefg") 3).
  - lia.
  - vm_compute. right. left. reflexivity.
Defined.

(** ** The Document Assembler *)

Lemma bind_ret_l {image A B} (a : A) (k : A -> Bot image B) :
  bind (ret a) k = k a.
Proof. unfold bind, ret. now destruct (k a). Qed.

Lemma bind_assoc {image A B C} (m : Bot image A) (f : A -> Bot image B)
  (g : B -> Bot image C) :
  bind (bind m f) g = bind m (fun a => bind (f a) g).
Proof.
  destruct m as [evs [e|a]]; simpl; [reflexivity|].
  destruct (f a) as [evs1 [e1|b]]; simpl; [reflexivity|].
  destruct (g b) as [evs2 r]. now rewrite app_assoc.
Qed.

Lemma bind_ext {image A B} (m : Bot image A) (k k' : A -> Bot image B) :
  (forall a, k a = k' a) -> bind m k = bind m k'.
Proof.
  intros H. destruct m as [evs [e|a]]; simpl; [reflexivity|]. now rewrite H.
Qed.

Lemma fold_left_snoc {A B} (f : A -> B) (l : list A) (out : list B) :
  fold_left (fun out x => out ++ [f x]) l out = out ++ map f l.
Proof.
  revert out. induction l as [|a l IH]; intros out; simpl.
  - now rewrite app_nil_r.
  - now rewrite IH, <- app_assoc.
Qed.

Lemma length_enumerate {A} (l : list A) (start : nat) :
  length (enumerate l start) = length l.
Proof. unfold enumerate. rewrite length_combine, length_seq. lia. Qed.

Section Assembler.

Context {image file : Type}.
Context (pytesseract : image -> exn + pystr).
Context (translator : pystr -> exn + pystr).
Context (reshape get_display : pystr -> pystr).
Context (fitz_open : file -> exn + list (src_page image)).
Context (fontfile : option pystr).

Local Abbreviation process_page' :=
  (process_page pytesseract translator reshape get_display fontfile).
Local Abbreviation page_arabic' := (page_arabic pytesseract translator).
Local Abbreviation page_block' := (page_block reshape get_display fontfile).
Local Abbreviation layout' := (expected_layout reshape get_display fontfile).
Local Abbreviation build' :=
  (build_translated_pdf pytesseract translator reshape get_display
     fitz_open fontfile).

(** One round of the page loop appends the block of the page. *)
Lemma process_page_eq (out : list (out_page image)) (i : nat)
  (page : src_page image) :
  process_page' out (i, page) =
  (a <- page_arabic' page ;; ret (out ++ page_block' i page a)).
Proof.
  unfold process_page, page_arabic. cbv zeta.
  rewrite bind_assoc. apply bind_ext. intros t.
  rewrite bind_assoc. apply bind_ext. intros a.
  rewrite bind_ret_l, fold_left_snoc, <- app_assoc. reflexivity.
Qed.

Lemma foldM_process_pages (src : list (src_page image)) :
  forall (i : nat) (out out' : list (out_page image)),
    outcome (foldM process_page' (combine (seq i (length src)) src) out)
    = inr out' <->
    exists arabics,
      Forall2 (fun p a => outcome (page_arabic' p) = inr a) src arabics /\
      out' = out ++ layout' i src arabics.
Proof.
  induction src as [|p ps IH]; intros i out out'.
  - simpl. split.
    + intros H. inversion H; subst. exists []. split; [constructor|].
      now rewrite app_nil_r.
    + intros (arabics & HF & ->). inversion HF; subst. simpl.
      now rewrite app_nil_r.
  - cbn [length seq combine foldM]. rewrite outcome_bind, process_page_eq.
    rewrite outcome_bind. destruct (outcome (page_arabic' p)) as [e|a] eqn:Pa.
    + split; [discriminate|]. intros (arabics & HF & _).
      inversion HF; subst. congruence.
    + cbn [outcome ret snd]. rewrite IH. split.
      * intros (arabics & HF & ->). exists (a :: arabics). split.
        -- now constructor.
        -- cbn [expected_layout]. now rewrite <- !app_assoc.
      * intros (arabics & HF & ->). inversion HF as [|? a' ? arabics' Ha HF'];
          subst. rewrite Pa in Ha. inversion Ha; subst a'.
        exists arabics'. split; [exact HF'|].
        cbn [expected_layout]. now rewrite <- !app_assoc.
Qed.

(** C1.  When the input opens as the pages [src], the assembler saves a
    document exactly when the text of every page could be extracted and
    translated, and the document is then the blocks of the source pages in
    source order: block [i] is the copy of page [i] followed by its
    generated pages, one per chunk the paginator makes of the page's
    translation, and there is at least one such chunk. *)
Theorem build_translated_pdf_layout (input : file)
  (src : list (src_page image)) (out : list (out_page image)) :
  fitz_open input = inr src ->
  (outcome (build' input) = inr out <->
   exists arabics,
     Forall2 (fun p a => outcome (page_arabic' p) = inr a) src arabics /\
     out = layout' 0 src arabics) /\
  (forall (i : nat) (p : src_page image) (a : pystr),
      page_block' i p a =
      Copied i p :: translation_pages reshape get_display fontfile i p a /\
      length (translation_pages reshape get_display fontfile i p a)
      = length (split_for_pdf a 2600) /\
      (1 <= length (split_for_pdf a 2600))%nat /\
      forall pg, In pg (translation_pages reshape get_display fontfile i p a) ->
                 exists j chunk,
                   In chunk (split_for_pdf a 2600) /\
                   pg = translation_page reshape get_display fontfile i p
                          (length (split_for_pdf a 2600)) (j, chunk)).
Proof.
  intros Hopen. split.
  - unfold build_translated_pdf. rewrite Hopen, bind_lift_inr.
    unfold enumerate. apply (foldM_process_pages src 0 [] out).
  - intros i p a. split; [reflexivity|]. split; [|split].
    + unfold translation_pages. cbv zeta.
      now rewrite length_map, length_enumerate.
    + apply split_for_pdf_at_least_one. lia.
    + unfold translation_pages. cbv zeta. intros pg H.
      apply in_map_iff in H as ([j chunk] & <- & Hin).
      exists j, chunk. split; [|reflexivity].
      unfold enumerate in Hin. now apply in_combine_r in Hin.
Qed.

(** *** Message handlers *)

(** C10.  Once OCR and translation have produced [arabic] (placeholders
    applied), the image handler replies with [arabic] as text when it has
    at most 3500 characters, and otherwise with a document named
    "translation_ar.txt" whose content is [arabic]; nothing else follows
    the progress message and the translation calls. *)
Theorem handle_image_reply (img : image) (extracted arabic : pystr)
  (evs : list (event image)) :
  ocr_and_translate pytesseract translator img
  = (evs, inr (extracted, arabic)) ->
  let progress := ReplyText (lit "Processing image (OCR + translation)...") in
  (len arabic <= 3500 ->
   handle_image pytesseract translator img
   = (progress :: evs ++ [ReplyText arabic], inr tt)) /\
  (3500 < len arabic ->
   handle_image pytesseract translator img
   = (progress :: evs
        ++ [ReplyDocument (TextFile arabic) (lit "translation_ar.txt")],
      inr tt)).
Proof.
  intros H progress. unfold handle_image, attempt. rewrite H.
  unfold reply_text, reply_document, emit, bind. cbn [fst snd app].
  split; intros Hl.
  - destruct (Z.leb_spec (len arabic) 3500); [reflexivity|lia].
  - destruct (Z.leb_spec (len arabic) 3500); [lia|reflexivity].
Qed.

(** The PDF handler catches what the pipeline raises and reports it; no
    document is sent. *)
Lemma handle_pdf_reports_failure (document : file) (e : exn) :
  outcome (build' document) = inl e ->
  handle_pdf pytesseract translator reshape get_display fitz_open fontfile
    document
  = (ReplyText (lit "Processing your PDF (OCR + translation)...")
       :: events (build' document)
       ++ [ReplyText (lit "Failed to process PDF: " ++ e)],
     inr tt).
Proof.
  intros H. unfold handle_pdf, attempt.
  destruct (build' document) as [evs r]. simpl in H. subst r. reflexivity.
Qed.

(** So does the image handler. *)
Lemma handle_image_reports_failure (img : image) (e : exn) :
  outcome (ocr_and_translate pytesseract translator img) = inl e ->
  handle_image pytesseract translator img
  = (ReplyText (lit "Processing image (OCR + translation)...")
       :: events (ocr_and_translate pytesseract translator img)
       ++ [ReplyText (lit "Failed to process image: " ++ e)],
     inr tt).
Proof.
  intros H. unfold handle_image, attempt.
  destruct (ocr_and_translate pytesseract translator img) as [evs r].
  simpl in H. subst r. reflexivity.
Qed.

(** The text handler does not: when translation fails the exception leaves
    the handler, and the only events are the calls to the translator. *)
Lemma handle_text_raises (text : pystr) (e : exn) :
  outcome (handle_text (image := image) translator text) = inl e ->
  forall ev, In ev (events (handle_text (image := image) translator text)) ->
             exists c, ev = Translate c.
Proof.
  unfold handle_text. cbv zeta.
  destruct (truthy (strip text)); cbn [negb]; [|discriminate].
  destruct (translate_chunked translator (strip text) 3500)
    as [evs [e'|a]] eqn:T.
  - intros _ ev Hev. simpl in Hev.
    assert (Hin : In ev (events (translate_chunked (image := image)
                                   translator (strip text) 3500)))
      by now rewrite T.
    apply events_translate_chunked in Hin as (_ & c & _ & -> & _).
    now exists c.
  - discriminate.
Qed.

End Assembler.

(** C9 (the code at the failing input).  A text message "hello" arrives
    while the translation service is down: the handler calls the
    translator, the exception is not caught, and no reply is sent. *)
Theorem handle_text_failure_unreported :
  handle_text (image := Demo.image) Demo.translator_down (lit "hello")
  = ([Translate (lit "hello")], inl (lit "connection refused")).
Proof. reflexivity. Qed.

Lemma build_translated_pdf_layout_witness :
  outcome (build_translated_pdf Demo.pytesseract Demo.translator_echo
             Demo.reshape Demo.get_display Demo.fitz_open Demo.fontfile
             Demo.demo_pdf)
  = inr (expected_layout Demo.reshape Demo.get_display Demo.fontfile 0
           Demo.demo_pdf
           [lit "Hello World" ++ [LF] ++ lit "Hello World";
            NO_TEXT_ON_PAGE]).
Proof.
  apply (build_translated_pdf_layout Demo.pytesseract Demo.translator_echo
           Demo.reshape Demo.get_display Demo.fitz_open Demo.fontfile
           Demo.demo_pdf Demo.demo_pdf).
  - reflexivity.
  - exists [lit "Hello World" ++ [LF] ++ lit "Hello World"; NO_TEXT_ON_PAGE].
    split; [|reflexivity].
    constructor; [reflexivity|]. constructor; [reflexivity|]. constructor.
Defined.

Lemma handle_image_reply_witness :
  handle_image Demo.pytesseract Demo.translator_mock (lit "TEST")
  = ([ReplyText (lit "Processing image (OCR + translation)...");
      Translate (lit "TEST"); ReplyText Demo.ARABIC_TEST], inr tt).
Proof.
  apply (handle_image_reply Demo.pytesseract Demo.translator_mock
           (lit "TEST") (lit "TEST") Demo.ARABIC_TEST [Translate (lit "TEST")]).
  - reflexivity.
  - vm_compute. discriminate.
Defined.

(** * Further properties of the pipeline *)

(** ** Trimmed strings *)

Lemma strip_fixed_lstrip (s : pystr) : strip s = s -> lstrip s = s.
Proof.
  intros H. rewrite <- H at 1. unfold strip.
  now rewrite lstrip_rstrip, lstrip_idem.
Qed.

Lemma strip_fixed_rstrip (s : pystr) : strip s = s -> rstrip s = s.
Proof.
  intros H. rewrite <- H at 1. unfold strip. now rewrite rstrip_idem.
Qed.

Lemma rstrip_app (u b : pystr) :
  rstrip (u ++ b) = match rstrip b with [] => rstrip u | r => u ++ r end.
Proof.
  induction u as [|a u IH]; simpl; [now destruct (rstrip b)|].
  rewrite IH. destruct (rstrip b) as [|r rs]; [reflexivity|].
  now destruct u.
Qed.

(** Trimming leaves alone what starts and ends with trimmed, non-empty
    pieces. *)
Lemma strip_between (a m b : pystr) :
  strip a = a -> a <> [] -> strip b = b -> b <> [] ->
  strip (a ++ m ++ b) = a ++ m ++ b.
Proof.
  intros Ha Hane Hb Hbne. unfold strip.
  rewrite lstrip_app, (strip_fixed_lstrip a Ha).
  destruct a as [|a0 a']; [contradiction|].
  rewrite (app_assoc (a0 :: a') m b), rstrip_app, (strip_fixed_rstrip b Hb).
  destruct b; [contradiction|reflexivity].
Qed.

Lemma strip_nonblank_last (s : pystr) :
  strip s = s -> s <> [] -> exists t c, s = t ++ [c] /\ isspace c = false.
Proof.
  intros H Hne. rewrite <- H in Hne.
  destruct (strip_last s Hne) as (t & c & E & Hc).
  exists t, c. split; [congruence|exact Hc].
Qed.

(** ** [split] and [join] *)

Lemma split_nonnil (d : char) (s : pystr) : split d s <> [].
Proof.
  destruct s as [|c s]; simpl; [discriminate|].
  destruct (c =? d)%N; [discriminate|]. destruct (split d s); discriminate.
Qed.

Lemma join_cons (sep x : pystr) (l : list pystr) :
  l <> [] -> join sep (x :: l) = x ++ sep ++ join sep l.
Proof. destruct l; [contradiction|reflexivity]. Qed.

(** Joining what [split] produced gives the string back. *)
Lemma join_split (d : char) (s : pystr) : join [d] (split d s) = s.
Proof.
  induction s as [|c s IH]; [reflexivity|]. simpl split.
  destruct (N.eqb_spec c d) as [->|Hne].
  - rewrite join_cons by apply split_nonnil. simpl. now rewrite IH.
  - pose proof (split_nonnil d s) as Hs.
    destruct (split d s) as [|l ls]; [contradiction|].
    destruct ls as [|l' ls'].
    + simpl in *. now rewrite IH.
    + rewrite join_cons in IH by discriminate.
      rewrite join_cons by discriminate. simpl in *. now rewrite IH.
Qed.

Lemma len_join (sep : pystr) (l : list pystr) :
  len (join sep l)
  = total_len l + len sep * Z.max 0 (Z.of_nat (length l) - 1).
Proof.
  induction l as [|x l IH]; [unfold len; simpl; lia|].
  destruct l as [|y l].
  - simpl. unfold len. simpl. lia.
  - rewrite join_cons by discriminate. rewrite !len_app, IH.
    cbn [total_len fold_right length]. pose proof (len_nonneg sep). nia.
Qed.

Lemma total_len_nonneg (l : list pystr) : 0 <= total_len l.
Proof.
  induction l as [|x l IH]; simpl; [lia|]. pose proof (len_nonneg x). lia.
Qed.

Lemma join_snoc (sep p : pystr) (l : list pystr) :
  join sep (l ++ [p])
  = match l with [] => p | _ :: _ => join sep l ++ sep ++ p end.
Proof.
  induction l as [|x l IH]; [reflexivity|].
  destruct l as [|y l]; [reflexivity|].
  change ((x :: y :: l) ++ [p]) with (x :: ((y :: l) ++ [p])).
  rewrite join_cons by (simpl; discriminate).
  rewrite IH, (join_cons sep x (y :: l)) by discriminate.
  now rewrite <- !app_assoc.
Qed.

(** ** Paragraphs *)

Lemma nonspace_concat_split (d : char) (s : pystr) :
  isspace d = true -> nonspace (concat (split d s)) = nonspace s.
Proof.
  intros Hd. induction s as [|c s IH]; [reflexivity|]. simpl split.
  destruct (N.eqb_spec c d) as [->|_].
  - simpl concat. now rewrite nonspace_cons, Hd.
  - pose proof (split_nonnil d s) as Hs.
    destruct (split d s) as [|l ls]; [contradiction|].
    simpl concat in *. rewrite !nonspace_cons, IH. reflexivity.
Qed.

(** The paragraphs hold the non-white-space characters of the text. *)
Lemma nonspace_paragraphs (text : pystr) :
  nonspace (concat (paragraphs text)) = nonspace text.
Proof.
  unfold paragraphs.
  rewrite <- (nonspace_concat_split LF text) by reflexivity.
  induction (split LF text) as [|p ps IH]; [reflexivity|].
  cbn [filter concat]. rewrite nonspace_app.
  destruct (truthy (strip p)) eqn:T.
  - cbn [map concat]. now rewrite nonspace_app, nonspace_strip, IH.
  - apply truthy_false, strip_nil in T. now rewrite T, IH.
Qed.

(** Every paragraph is trimmed and not empty. *)
Lemma paragraphs_trimmed (text p : pystr) :
  In p (paragraphs text) -> strip p = p /\ p <> [].
Proof.
  unfold paragraphs. intros H. apply in_map_iff in H as (q & <- & Hq).
  apply filter_In in Hq as [_ Hq]. split; [apply strip_idem|].
  now apply truthy_true.
Qed.

Lemma paragraphs_nonnil (text : pystr) :
  strip text <> [] -> paragraphs text <> [].
Proof.
  intros H E. apply H, strip_nil. rewrite <- nonspace_paragraphs, E.
  reflexivity.
Qed.

(** Joined with newlines, the paragraphs are no longer than the text. *)
Lemma len_join_paragraphs (text : pystr) :
  len (join [LF] (paragraphs text)) <= len text.
Proof.
  rewrite <- (join_split LF text) at 2. rewrite !len_join.
  unfold paragraphs. pose proof (split_nonnil LF text) as Hne.
  induction (split LF text) as [|p ps IH]; [contradiction|].
  assert (G : total_len (map strip (filter (fun p => truthy (strip p)) ps))
              <= total_len ps /\
              (length (map strip (filter (fun p => truthy (strip p)) ps))
               <= length ps)%nat).
  { clear. induction ps as [|q qs [I1 I2]]; [simpl; split; lia|].
    cbn [filter]. destruct (truthy (strip q));
      cbn [map total_len fold_right length];
      pose proof (len_strip q); pose proof (len_nonneg q);
      fold (total_len qs);
      fold (total_len (map strip (filter (fun p => truthy (strip p)) qs)));
      split; lia. }
  destruct G as [G1 G2]. cbn [filter].
  change (len [LF]) with 1.
  destruct (truthy (strip p)); cbn [map total_len fold_right length];
    fold (total_len ps);
    fold (total_len (map strip (filter (fun p => truthy (strip p)) ps)));
    pose proof (len_strip p); pose proof (len_nonneg p);
    pose proof (total_len_nonneg ps); lia.
Qed.

(** ** The Chunked Translator, continued *)

Lemma total_len_app (l l' : list pystr) :
  total_len (l ++ l') = total_len l + total_len l'.
Proof.
  induction l as [|x l IH]; simpl; [reflexivity|]. fold (total_len (l ++ l')).
  fold (total_len l). lia.
Qed.

Lemma len_join_prefix (sep : pystr) (l l' : list pystr) :
  len (join sep l) <= len (join sep (l ++ l')).
Proof.
  rewrite !len_join, total_len_app, length_app.
  pose proof (total_len_nonneg l'). pose proof (len_nonneg sep). nia.
Qed.

(** Trimmed, non-empty strings joined with newlines give a trimmed string,
    non-empty unless the list is. *)
Lemma join_trimmed (l : list pystr) :
  (forall p, In p l -> strip p = p /\ p <> []) ->
  strip (join [LF] l) = join [LF] l /\ (l <> [] -> join [LF] l <> []).
Proof.
  induction l as [|x l IH]; intros H; [split; [reflexivity|congruence]|].
  destruct (H x (or_introl eq_refl)) as [Hx Hxne].
  destruct IH as [IH1 IH2]; [intros p Hp; apply H; now right|].
  destruct l as [|y l]; [simpl; auto|].
  rewrite join_cons by discriminate. split.
  - apply strip_between; auto. apply IH2. discriminate.
  - intros _ E. apply app_eq_nil in E as [E _]. contradiction.
Qed.

(** While everything fits, the packing loop only grows the buffer: no chunk
    is flushed and the buffer is the paragraphs read, joined by newlines. *)
Lemma chunk_loop_pack (max : Z) (parts : list pystr) :
  forall done,
    (forall p, In p (done ++ parts) -> strip p = p /\ p <> []) ->
    len (join [LF] (done ++ parts)) <= max ->
    chunk_loop max parts ([], join [LF] done)
    = inr ([], join [LF] (done ++ parts)).
Proof.
  induction parts as [|p ps IH]; intros done Hall Hlen.
  - now rewrite app_nil_r.
  - cbn [chunk_loop].
    assert (Hp : strip p = p /\ p <> [])
      by (apply Hall, in_or_app; right; now left).
    assert (Hpre : len (join [LF] (done ++ [p])) <= max).
    { pose proof (len_join_prefix [LF] (done ++ [p]) ps) as L.
      rewrite <- app_assoc in L. simpl in L. lia. }
    assert (Hstep : chunk_step max ([], join [LF] done) p
                    = inr ([], join [LF] (done ++ [p]))).
    { unfold chunk_step. rewrite join_snoc in *.
      destruct done as [|d ds].
      - simpl join. change (len []) with 0.
        destruct (Z.leb_spec (0 + len p + 1) max).
        + f_equal. f_equal. change ([] ++ [LF] ++ p) with (LF :: p).
          unfold strip. simpl lstrip. apply Hp.
        + cbn [truthy]. destruct (Z.leb_spec (len p) max); [reflexivity|lia].
      - destruct (join_trimmed (d :: ds)) as [T1 T2].
        { intros q Hq. apply Hall, in_or_app. now left. }
        rewrite !len_app in Hpre. change (len [LF]) with 1 in Hpre.
        destruct (Z.leb_spec (len (join [LF] (d :: ds)) + len p + 1) max);
          [|lia].
        f_equal. f_equal. apply strip_between; try tauto.
        apply T2. discriminate. }
    rewrite Hstep. rewrite (IH (done ++ [p])); rewrite <- app_assoc; auto.
Qed.

Lemma firstn_plus {A} (a b : nat) (l : list A) :
  firstn (a + b) l = firstn a l ++ firstn b (skipn a l).
Proof.
  revert l. induction a as [|a IH]; intros [|x l]; simpl;
    try reflexivity.
  - now rewrite firstn_nil.
  - now rewrite IH.
Qed.

Lemma concat_slices (p : pystr) (max : Z) (n : nat) :
  0 < max ->
  concat (map (fun k => slice p (Z.of_nat k * max) (Z.of_nat k * max + max))
              (seq 0 n))
  = firstn (n * Z.to_nat max) p.
Proof.
  intros Hm. induction n as [|n IH]; [reflexivity|].
  rewrite seq_S, map_app, concat_app, IH. simpl. rewrite app_nil_r.
  unfold slice.
  replace (Z.of_nat n * max + max - Z.of_nat n * max) with max by ring.
  rewrite Z2Nat.inj_mul, Nat2Z.id by lia.
  rewrite (Nat.add_comm (Z.to_nat max)). now rewrite firstn_plus.
Qed.

(** The slices of the hard split, put end to end, are the paragraph. *)
Lemma hard_split_concat (p : pystr) (max : Z) (slices : list pystr) :
  0 < max -> hard_split p max = inr slices -> concat slices = p.
Proof.
  intros Hm H. rewrite hard_split_spec in H by exact Hm.
  inversion H; subst slices. rewrite concat_slices by exact Hm.
  apply firstn_all2.
  pose proof (Z.mul_succ_div_gt (len p + max - 1) max Hm) as G.
  assert (0 <= (len p + max - 1) / max)
    by (apply Z.div_pos; unfold len; lia).
  unfold len in *. nia.
Qed.

(** No slice of the hard split is empty. *)
Lemma hard_split_nonempty (p : pystr) (max : Z) (slices : list pystr) :
  0 < max -> hard_split p max = inr slices ->
  Forall (fun c => c <> []) slices.
Proof.
  intros Hm H. rewrite hard_split_spec in H by exact Hm.
  inversion H; subst slices. apply Forall_map, Forall_forall.
  intros k Hk. apply in_seq in Hk.
  pose proof (Z.mul_div_le (len p + max - 1) max Hm) as G.
  assert (0 <= (len p + max - 1) / max)
    by (apply Z.div_pos; unfold len; lia).
  intros E. apply (f_equal (@length _)) in E.
  unfold slice in E. rewrite length_firstn, length_skipn in E.
  replace (Z.of_nat k * max + max - Z.of_nat k * max) with max in E by ring.
  simpl in E. unfold len in *. nia.
Qed.

Lemma chunk_step_content (max : Z) chunks buf p chunks' buf' :
  0 < max ->
  chunk_step max (chunks, buf) p = inr (chunks', buf') ->
  nonspace (concat chunks' ++ buf')
  = nonspace (concat chunks ++ buf) ++ nonspace p.
Proof.
  intros Hm. unfold chunk_step. cbv zeta.
  destruct (len buf + len p + 1 <=? max).
  - intros H; injection H as <- <-.
    rewrite !nonspace_app, nonspace_strip, !nonspace_app.
    change (nonspace [LF]) with (@nil char). now rewrite app_assoc.
  - assert (E : nonspace (concat (if truthy buf then chunks ++ [buf]
                                  else chunks))
                = nonspace (concat chunks ++ buf)).
    { destruct buf; simpl; [now rewrite app_nil_r|].
      rewrite concat_app. simpl. now rewrite app_nil_r. }
    destruct (len p <=? max).
    + intros H; injection H as <- <-. rewrite <- E. apply nonspace_app.
    + destruct (hard_split p max) as [e|slices] eqn:Hs; [discriminate|].
      intros H; injection H as <- <-.
      rewrite <- E, app_nil_r, concat_app.
      rewrite (hard_split_concat p max slices Hm Hs). apply nonspace_app.
Qed.

Lemma chunk_loop_content (max : Z) (parts : list pystr) :
  0 < max ->
  forall chunks buf chunks' buf',
    chunk_loop max parts (chunks, buf) = inr (chunks', buf') ->
    nonspace (concat chunks' ++ buf')
    = nonspace (concat chunks ++ buf) ++ nonspace (concat parts).
Proof.
  intros Hm. induction parts as [|p ps IH]; intros chunks buf chunks' buf';
    cbn [chunk_loop].
  - intros H; inversion H; subst. simpl. now rewrite app_nil_r.
  - destruct (chunk_step max (chunks, buf) p) as [e|[c1 b1]] eqn:S;
      [discriminate|].
    intros H. apply IH in H. rewrite H.
    rewrite (chunk_step_content max _ _ _ _ _ Hm S).
    simpl concat. now rewrite (nonspace_app p), <- app_assoc.
Qed.

Lemma chunk_step_nonempty (max : Z) chunks buf p chunks' buf' :
  0 < max -> Forall (fun c => c <> []) chunks ->
  chunk_step max (chunks, buf) p = inr (chunks', buf') ->
  Forall (fun c => c <> []) chunks'.
Proof.
  intros Hm Hc. unfold chunk_step. cbv zeta.
  destruct (len buf + len p + 1 <=? max).
  - intros H; injection H as <- <-. exact Hc.
  - assert (Hc1 : Forall (fun c => c <> [])
                    (if truthy buf then chunks ++ [buf] else chunks)).
    { destruct buf; simpl; [exact Hc|].
      apply Forall_app. split; [exact Hc|]. now constructor. }
    destruct (len p <=? max).
    + intros H; injection H as <- <-. exact Hc1.
    + destruct (hard_split p max) as [e|slices] eqn:Hs; [discriminate|].
      intros H; injection H as <- <-. apply Forall_app. split; [exact Hc1|].
      exact (hard_split_nonempty p max slices Hm Hs).
Qed.

Lemma chunk_loop_nonempty (max : Z) (parts : list pystr) :
  0 < max ->
  forall chunks buf chunks' buf',
    Forall (fun c => c <> []) chunks ->
    chunk_loop max parts (chunks, buf) = inr (chunks', buf') ->
    Forall (fun c => c <> []) chunks'.
Proof.
  intros Hm. induction parts as [|p ps IH]; intros chunks buf chunks' buf' Hc;
    cbn [chunk_loop].
  - intros H; inversion H; subst. exact Hc.
  - destruct (chunk_step max (chunks, buf) p) as [e|[c1 b1]] eqn:S;
      [discriminate|].
    apply IH. exact (chunk_step_nonempty max _ _ _ _ _ Hm Hc S).
Qed.

(** With a negative limit nothing is ever kept. *)
Lemma chunk_loop_negative (max : Z) (parts : list pystr) :
  max < 0 -> chunk_loop max parts ([], []) = inr ([], []).
Proof.
  intros Hm. induction parts as [|p ps IH]; [reflexivity|].
  cbn [chunk_loop]. unfold chunk_step, hard_split, py_range0.
  pose proof (len_nonneg p). change (len []) with 0.
  destruct (Z.leb_spec (0 + len p + 1) max); [lia|].
  destruct (Z.leb_spec (len p) max); [lia|].
  destruct (Z.eqb_spec max 0); [lia|].
  destruct (Z.ltb_spec 0 max); [lia|]. exact IH.
Qed.

Lemma chunk_loop_total (max : Z) (parts : list pystr) :
  0 < max ->
  forall st, exists st', chunk_loop max parts st = inr st'.
Proof.
  intros Hm. induction parts as [|p ps IH]; intros [chunks buf];
    cbn [chunk_loop]; [now eexists|].
  assert (E : exists st', chunk_step max (chunks, buf) p = inr st').
  { unfold chunk_step. cbv zeta.
    destruct (len buf + len p + 1 <=? max); [now eexists|].
    destruct (len p <=? max); [now eexists|].
    rewrite hard_split_spec by exact Hm. now eexists. }
  destruct E as (st' & ->). apply IH.
Qed.

Section TranslatorRuns.

Context {image : Type} (translator : pystr -> exn + pystr).

Lemma call_translator_eq (c : pystr) :
  call_translator (image := image) translator c
  = ([Translate c], translator c).
Proof. reflexivity. Qed.

Lemma mapM_translate_ok (chunks ts : list pystr) :
  Forall2 (fun c t => translator c = inr t) chunks ts ->
  mapM (call_translator (image := image) translator) chunks
  = (map Translate chunks, inr ts).
Proof.
  induction 1 as [|c t chunks ts Hc _ IH]; [reflexivity|].
  cbn [mapM]. rewrite call_translator_eq, Hc, IH. simpl.
  now rewrite app_nil_r.
Qed.

Lemma mapM_translate_fail (pre post ts : list pystr) (c : pystr) (e : exn) :
  Forall2 (fun c t => translator c = inr t) pre ts ->
  translator c = inl e ->
  mapM (call_translator (image := image) translator) (pre ++ c :: post)
  = (map Translate (pre ++ [c]), inl e).
Proof.
  intros H Hc. induction H as [|c' t pre ts Hc' _ IH].
  - cbn [app mapM]. rewrite call_translator_eq, Hc. reflexivity.
  - cbn [app mapM]. rewrite call_translator_eq, Hc', IH. reflexivity.
Qed.

Lemma translate_chunked_run (text : pystr) (max : Z) (chunks : list pystr) :
  strip text <> [] -> make_chunks (strip text) max = inr chunks ->
  translate_chunked (image := image) translator text max
  = (translated <- mapM (call_translator translator) chunks ;;
     ret (strip (join [LF; LF] translated))).
Proof.
  intros Hne Hc. unfold translate_chunked. apply truthy_true in Hne.
  rewrite Hne, Hc. cbn [negb]. now rewrite bind_lift_inr.
Qed.

(** X1.  A text whose trimmed length is within the limit is sent to the
    translation service in one call: the single chunk is its non-blank
    lines, each trimmed, joined by newlines, and the result is the trimmed
    answer. *)
Theorem translate_chunked_single_chunk (text : pystr) (max : Z) :
  strip text <> [] -> len (strip text) <= max ->
  let chunk := join [LF] (paragraphs (strip text)) in
  make_chunks (strip text) max = inr [chunk] /\
  translate_chunked (image := image) translator text max
  = ([Translate chunk],
     match translator chunk with
     | inl e => inl e
     | inr t => inr (strip t)
     end).
Proof.
  intros Hne Hlen chunk.
  assert (Hc : make_chunks (strip text) max = inr [chunk]).
  { unfold make_chunks.
    pose proof (chunk_loop_pack max (paragraphs (strip text)) []) as P.
    cbn [app join] in P. fold chunk in P.
    assert (L : chunk_loop max (paragraphs (strip text)) ([], [])
                = inr ([], chunk)).
    { apply P; [apply paragraphs_trimmed|].
      pose proof (len_join_paragraphs (strip text)). unfold chunk. lia. }
    match goal with
    | |- context [chunk_loop ?m ?ps ?st] =>
        replace (chunk_loop m ps st) with
          (@inr exn (list pystr * pystr) ([], chunk))
    end.
    destruct (join_trimmed (paragraphs (strip text))) as [_ T];
      [apply paragraphs_trimmed|].
    assert (Hch : chunk <> []).
    { apply T, paragraphs_nonnil. now rewrite strip_idem. }
    apply truthy_true in Hch. now rewrite Hch. }
  split; [exact Hc|].
  rewrite (translate_chunked_run text max [chunk] Hne Hc).
  cbn [mapM]. rewrite call_translator_eq.
  destruct (translator chunk); reflexivity.
Qed.

(** X2.  For a positive limit the packing step always succeeds, no chunk
    is empty, and the chunks put end to end hold exactly the
    non-white-space characters of the text, in order: chunking loses only
    white space. *)
Theorem make_chunks_complete (text : pystr) (max : Z) :
  0 < max ->
  exists chunks,
    make_chunks text max = inr chunks /\
    nonspace (concat chunks) = nonspace text /\
    Forall (fun c => c <> [] /\ len c <= max) chunks.
Proof.
  intros Hm. unfold make_chunks.
  destruct (chunk_loop_total max (paragraphs text) Hm ([], []))
    as ([chunks buf] & L).
  rewrite L. eexists. split; [reflexivity|].
  pose proof (chunk_loop_content max _ Hm _ _ _ _ L) as C.
  pose proof (chunk_loop_nonempty max _ Hm _ _ _ _ (Forall_nil _) L) as N.
  assert (B : Forall (bounded max) (if truthy buf then chunks ++ [buf]
                                    else chunks)).
  { apply (make_chunks_bound text max); [exact Hm|].
    unfold make_chunks. now rewrite L. }
  simpl in C. rewrite nonspace_paragraphs in C. split.
  - rewrite <- C. destruct buf; simpl; [now rewrite app_nil_r|].
    rewrite concat_app. simpl. now rewrite app_nil_r.
  - assert (N' : Forall (fun c => c <> [])
                   (if truthy buf then chunks ++ [buf] else chunks)).
    { destruct buf; simpl; [exact N|].
      apply Forall_app. split; [exact N|]. now constructor. }
    rewrite Forall_forall in *. intros c Hc. split; [now apply N'|].
    now apply B.
Qed.

(** X3.  When every chunk is translated, the service is called once per
    chunk, in order, and the result is the answers joined by blank lines,
    trimmed. *)
Theorem translate_chunked_success (text : pystr) (max : Z)
  (chunks ts : list pystr) :
  strip text <> [] -> make_chunks (strip text) max = inr chunks ->
  Forall2 (fun c t => translator c = inr t) chunks ts ->
  translate_chunked (image := image) translator text max
  = (map Translate chunks, inr (strip (join [LF; LF] ts))).
Proof.
  intros Hne Hc Hts. rewrite (translate_chunked_run text max chunks Hne Hc).
  rewrite (mapM_translate_ok chunks ts Hts). simpl. now rewrite app_nil_r.
Qed.

(** X4.  When the service fails on a chunk, the whole call fails with that
    exception: the chunks before it were translated, the chunks after it
    are never sent, and no partial result is returned. *)
Theorem translate_chunked_failure (text : pystr) (max : Z)
  (pre post ts : list pystr) (c : pystr) (e : exn) :
  strip text <> [] -> make_chunks (strip text) max = inr (pre ++ c :: post) ->
  Forall2 (fun c t => translator c = inr t) pre ts ->
  translator c = inl e ->
  translate_chunked (image := image) translator text max
  = (map Translate (pre ++ [c]), inl e).
Proof.
  intros Hne Hc Hts He. rewrite (translate_chunked_run text max _ Hne Hc).
  now rewrite (mapM_translate_fail pre post ts c e Hts He).
Qed.

(** X5.  With a limit of zero a non-blank text makes the call raise the
    [ValueError] of [range], before the service is called. *)
Theorem translate_chunked_zero_limit (text : pystr) :
  strip text <> [] ->
  translate_chunked (image := image) translator text 0
  = ([], inl ValueError_range_step).
Proof.
  intros Hne. unfold translate_chunked, make_chunks.
  pose proof (paragraphs_nonnil (strip text)) as Hp.
  rewrite strip_idem in Hp. specialize (Hp Hne).
  destruct (paragraphs (strip text)) as [|p ps] eqn:E; [contradiction|].
  assert (Hpne : p <> []).
  { apply (paragraphs_trimmed (strip text)). rewrite E. now left. }
  apply truthy_true in Hne. rewrite Hne. cbn [negb chunk_loop].
  unfold chunk_step, hard_split, py_range0. change (len []) with 0.
  assert (0 < len p) by (destruct p; [contradiction|unfold len; simpl; lia]).
  destruct (Z.leb_spec (0 + len p + 1) 0); [lia|].
  destruct (Z.leb_spec (len p) 0); [lia|]. reflexivity.
Qed.

(** X6.  With a negative limit nothing is sent and the result is the empty
    string, whatever the text. *)
Theorem translate_chunked_negative_limit (text : pystr) (max : Z) :
  max < 0 ->
  translate_chunked (image := image) translator text max = ([], inr []).
Proof.
  intros Hm. unfold translate_chunked, make_chunks.
  destruct (truthy (strip text)); [|reflexivity].
  cbn [negb]. now rewrite chunk_loop_negative.
Qed.

End TranslatorRuns.

Lemma translate_chunked_single_chunk_witness :
  translate_chunked (image := Demo.image) Demo.translator_echo
    (lit " ab " ++ [LF; LF] ++ lit " cd") 3500
  = ([Translate (lit "ab" ++ [LF] ++ lit "cd")],
     inr (lit "ab" ++ [LF] ++ lit "cd")).
Proof.
  apply (translate_chunked_single_chunk (image := Demo.image)
           Demo.translator_echo (lit " ab " ++ [LF; LF] ++ lit " cd") 3500).
  - vm_compute. discriminate.
  - vm_compute. discriminate.
Defined.

Lemma make_chunks_complete_witness :
  exists chunks,
    make_chunks (lit "ab" ++ [LF] ++ lit "cdefg") 3 = inr chunks /\
    nonspace (concat chunks) = nonspace (lit "ab" ++ [LF] ++ lit "cdefg") /\
    Forall (fun c => c <> [] /\ len c <= 3) chunks.
Proof.
  apply (make_chunks_complete (lit "ab" ++ [LF] ++ lit "cdefg") 3). lia.
Defined.

Lemma translate_chunked_success_witness :
  translate_chunked (image := Demo.image) Demo.translator_mock
    (lit "ab" ++ [LF] ++ lit "cdefg") 3
  = ([Translate (lit "ab"); Translate (lit "cde"); Translate (lit "fg")],
     inr (Demo.ARABIC_TEST ++ [LF; LF] ++ Demo.ARABIC_TEST ++ [LF; LF]
          ++ Demo.ARABIC_TEST)).
Proof.
  apply (translate_chunked_success (image := Demo.image) Demo.translator_mock
           (lit "ab" ++ [LF] ++ lit "cdefg") 3
           [lit "ab"; lit "cde"; lit "fg"]
           [Demo.ARABIC_TEST; Demo.ARABIC_TEST; Demo.ARABIC_TEST]).
  - vm_compute. discriminate.
  - reflexivity.
  - repeat constructor.
Defined.

Lemma translate_chunked_failure_witness :
  translate_chunked (image := Demo.image) Demo.translator_down
    (lit "ab" ++ [LF] ++ lit "cdefg") 3
  = ([Translate (lit "ab")], inl (lit "connection refused")).
Proof.
  apply (translate_chunked_failure (image := Demo.image) Demo.translator_down
           (lit "ab" ++ [LF] ++ lit "cdefg") 3
           [] [lit "cde"; lit "fg"] [] (lit "ab")).
  - vm_compute. discriminate.
  - reflexivity.
  - constructor.
  - reflexivity.
Defined.

Lemma translate_chunked_zero_limit_witness :
  translate_chunked (image := Demo.image) Demo.translator_echo (lit "ab") 0
  = ([], inl ValueError_range_step).
Proof.
  apply (translate_chunked_zero_limit (image := Demo.image)
           Demo.translator_echo (lit "ab")).
  vm_compute. discriminate.
Defined.

Lemma translate_chunked_negative_limit_witness :
  translate_chunked (image := Demo.image) Demo.translator_echo (lit "ab") (-1)
  = ([], inr []).
Proof.
  apply (translate_chunked_negative_limit (image := Demo.image)
           Demo.translator_echo (lit "ab") (-1)).
  lia.
Defined.

(** ** The Page Paginator, continued *)

Lemma fold_split_trimmed (max : Z) (lines : list pystr) :
  forall pages buf pages' buf',
    Forall (fun p => strip p = p) pages ->
    fold_left (split_step max) lines (pages, buf) = (pages', buf') ->
    Forall (fun p => strip p = p) pages'.
Proof.
  induction lines as [|l ls IH]; intros pages buf pages' buf' Hp F;
    cbn [fold_left] in F.
  - now inversion F; subst.
  - destruct (Z.leb_spec (len buf + len l + 1) max) as [Hf|Hf].
    + rewrite split_step_fits in F by exact Hf. now apply IH in F.
    + rewrite split_step_flush in F by exact Hf. apply IH in F; [exact F|].
      apply Forall_app. split; [exact Hp|].
      constructor; [apply strip_idem|constructor].
Qed.

(** X7.  Every page the paginator returns is trimmed: it neither starts nor
    ends with white space. *)
Theorem split_for_pdf_pages_trimmed (text : pystr) (max_chars : Z)
  (page : pystr) :
  In page (split_for_pdf text max_chars) -> strip page = page.
Proof.
  destruct (Z.leb_spec (len (strip text)) max_chars) as [Hs|Hl].
  - rewrite split_for_pdf_short by exact Hs. intros [<-|[]]. apply strip_idem.
  - rewrite split_for_pdf_long by exact Hl.
    destruct (fold_left _ _ _) as [pages buf] eqn:F.
    apply fold_split_trimmed in F; [|constructor].
    rewrite Forall_forall in F.
    destruct (truthy (strip buf)); [|now apply F].
    intros H. apply in_app_or in H as [H|[<-|[]]]; [now apply F|].
    apply strip_idem.
Qed.

(** X8.  The paginator returns no page at all in one case only: a negative
    capacity and a blank text. *)
Theorem split_for_pdf_empty_iff (text : pystr) (max_chars : Z) :
  split_for_pdf text max_chars = [] <-> max_chars < 0 /\ strip text = [].
Proof.
  split.
  - intros E. destruct (Z.ltb_spec max_chars 0) as [Hneg|Hpos].
    + split; [exact Hneg|].
      pose proof (split_for_pdf_content text max_chars) as C.
      rewrite E in C. simpl in C. now apply strip_nil.
    + pose proof (split_for_pdf_at_least_one text max_chars Hpos) as L.
      rewrite E in L. simpl in L. lia.
  - intros [Hneg Hb]. rewrite split_for_pdf_long; rewrite Hb.
    + reflexivity.
    + unfold len. simpl. lia.
Qed.

(** ** The RTL Text Shaper on the pages of the paginator *)

(** A trimmed string has no line at all or a last line that is not blank. *)
Lemma trimmed_last_line (s : pystr) :
  strip s = s ->
  splitlines s = [] \/ blank (last (splitlines s) []) = false.
Proof.
  intros H. destruct s as [|c0 s0] eqn:E; [now left|right].
  rewrite <- E in *.
  destruct (strip_nonblank_last s H) as (t & c & -> & Hc);
    [rewrite E; discriminate|].
  assert (Hb : is_linebreak c = false).
  { destruct (is_linebreak c) eqn:B; [|reflexivity].
    apply linebreak_isspace in B. congruence. }
  destruct (splitlines_snoc t c Hb) as (ls & l & ->).
  rewrite last_last. destruct (blank (l ++ [c])) eqn:B; [|reflexivity].
  apply blank_true in B. exfalso.
  exact (nonspace_snoc_nonnil l [] c Hc B).
Qed.

(** The shaped text splits back into the shaped lines, when the last line
    is not blank and shaping keeps lines non-empty and free of line
    boundaries. *)
Lemma splitlines_prepare_arabic (reshape get_display : pystr -> pystr)
  (text : pystr) :
  (forall l, breakfree l -> blank l = false ->
             breakfree (get_display (reshape l)) /\
             get_display (reshape l) <> []) ->
  (splitlines text = [] \/ blank (last (splitlines text) []) = false) ->
  splitlines (prepare_arabic_for_pdf reshape get_display text)
  = map (shape_line reshape get_display) (splitlines text).
Proof.
  intros Hshape Hlast. unfold prepare_arabic_for_pdf.
  pose proof (splitlines_breakfree text) as Hbf.
  apply splitlines_join.
  - apply Forall_map.
    apply (Forall_impl _ (P := breakfree)); [|exact Hbf].
    intros l Hl. unfold shape_line. fold (blank l).
    destruct (blank l) eqn:B; [intros c []|]. now apply Hshape.
  - destruct Hlast as [->|Hlast]; [now left|right].
    destruct (splitlines text) as [|l0 ls] eqn:E; [discriminate Hlast|].
    assert (D : shape_line reshape get_display [] = []) by reflexivity.
    rewrite <- D at 1. rewrite last_map by discriminate.
    unfold shape_line. fold (blank (last (l0 :: ls) [])). rewrite Hlast.
    apply Hshape; [|exact Hlast].
    rewrite Forall_forall in Hbf. apply Hbf.
    destruct (exists_last (l := l0 :: ls)) as (l' & a & ->); [discriminate|].
    rewrite last_last. apply in_or_app. right. now left.
Qed.

(** X9.  On every page the paginator returns, the shaper preserves the
    lines: the shaped page has exactly one line per line of the page, the
    empty line for a blank one and the shaped line otherwise, provided
    shaping keeps lines non-empty and free of line boundaries. *)
Theorem prepare_arabic_on_pages (reshape get_display : pystr -> pystr)
  (text : pystr) (max_chars : Z) (page : pystr) :
  (forall l, breakfree l -> blank l = false ->
             breakfree (get_display (reshape l)) /\
             get_display (reshape l) <> []) ->
  In page (split_for_pdf text max_chars) ->
  splitlines (prepare_arabic_for_pdf reshape get_display page)
  = map (shape_line reshape get_display) (splitlines page).
Proof.
  intros Hshape Hin. apply splitlines_prepare_arabic; [exact Hshape|].
  apply trimmed_last_line.
  destruct (Z.leb_spec (len (strip text)) max_chars) as [Hs|Hl].
  - rewrite split_for_pdf_short in Hin by exact Hs.
    destruct Hin as [<-|[]]. apply strip_idem.
  - rewrite split_for_pdf_long in Hin by exact Hl.
    destruct (fold_left _ _ _) as [pages buf] eqn:F.
    apply fold_split_trimmed in F; [|constructor].
    rewrite Forall_forall in F.
    destruct (truthy (strip buf)); [|now apply F].
    apply in_app_or in Hin as [H|[<-|[]]]; [now apply F|].
    apply strip_idem.
Qed.

Lemma demo_shaping_ok (l : pystr) :
  breakfree l -> blank l = false ->
  breakfree (Demo.get_display (Demo.reshape l)) /\
  Demo.get_display (Demo.reshape l) <> [].
Proof.
  intros Hb Hn. unfold Demo.get_display, Demo.reshape. split.
  - intros c Hc. apply Hb. now apply in_rev.
  - destruct l; [discriminate Hn|]. simpl. intros H.
    now apply app_eq_nil in H as [_ H].
Qed.

Lemma split_for_pdf_pages_trimmed_witness :
  strip (lit "b") = lit "b".
Proof.
  apply (split_for_pdf_pages_trimmed (lit "a" ++ [LF] ++ lit "  b") 3).
  vm_compute. right. left. reflexivity.
Defined.

Lemma prepare_arabic_on_pages_witness :
  splitlines (prepare_arabic_for_pdf Demo.reshape Demo.get_display
                (lit "ab" ++ [LF; LF] ++ lit "cd"))
  = map (shape_line Demo.reshape Demo.get_display)
        (splitlines (lit "ab" ++ [LF; LF] ++ lit "cd")).
Proof.
  apply (prepare_arabic_on_pages Demo.reshape Demo.get_display
           ([LF] ++ lit "ab" ++ [LF; LF] ++ lit "cd" ++ [LF]) 2600).
  - exact demo_shaping_ok.
  - vm_compute. left. reflexivity.
Defined.

(** ** The Text Extractor *)

(** X10.  The extractor performs no event.  When OCR fails it fails with
    the same exception; otherwise it returns the trimmed embedded text and
    the trimmed OCR text, the embedded text first and a newline between
    them, a blank one being left out: the result is empty exactly when
    both are blank. *)
Theorem extract_text_cases {image : Type}
  (pytesseract : image -> exn + pystr) (page : src_page image) :
  extract_text_from_pdf_page pytesseract page
  = ([], match pytesseract (get_pixmap page) with
         | inl e => inl e
         | inr o =>
             let extracted := strip (get_text page) in
             let ocr := strip o in
             inr (if truthy extracted
                  then (if truthy ocr then extracted ++ [LF] ++ ocr
                        else extracted)
                  else ocr)
         end).
Proof.
  unfold extract_text_from_pdf_page, ocr_pil_image. cbv zeta.
  destruct (pytesseract (get_pixmap page)) as [e|o]; [reflexivity|].
  rewrite bind_lift_inr. unfold ret. f_equal. f_equal.
  pose proof (strip_idem (get_text page)) as He.
  pose proof (strip_idem o) as Ho.
  destruct (strip (get_text page)) as [|e0 e'] eqn:E;
    destruct (strip o) as [|o0 o'] eqn:O; cbn [filter truthy join];
    try assumption; try reflexivity.
  apply strip_between; auto; discriminate.
Qed.

(** ** The Document Assembler, continued *)

Section AssemblerRuns.

Context {image file : Type}.
Context (pytesseract : image -> exn + pystr).
Context (translator : pystr -> exn + pystr).
Context (reshape get_display : pystr -> pystr).
Context (fitz_open : file -> exn + list (src_page image)).
Context (fontfile : option pystr).

Local Abbreviation process_page' :=
  (process_page pytesseract translator reshape get_display fontfile).
Local Abbreviation page_arabic' := (page_arabic pytesseract translator).
Local Abbreviation layout' := (expected_layout reshape get_display fontfile).
Local Abbreviation build' :=
  (build_translated_pdf pytesseract translator reshape get_display
     fitz_open fontfile).

Lemma translate_chunked_events (text : pystr) (ev : event image) :
  In ev (events (translate_chunked translator text 3500)) ->
  pipeline_event ev.
Proof.
  intros H. apply events_translate_chunked in H as (chunks & c & Hc & -> & Hin).
  exists c. split; [reflexivity|].
  apply make_chunks_bound in Hc; [|lia].
  rewrite Forall_forall in Hc. now apply Hc.
Qed.

Lemma page_arabic_events (page : src_page image) (ev : event image) :
  In ev (events (page_arabic' page)) -> pipeline_event ev.
Proof.
  unfold page_arabic. cbv zeta. intros H.
  apply events_bind in H as [H|(t & _ & H)].
  - unfold extract_text_from_pdf_page, ocr_pil_image in H. cbv zeta in H.
    apply events_bind in H as [[]|(o & _ & [])].
  - apply events_bind in H as [H|(a & _ & [])].
    now apply translate_chunked_events in H.
Qed.

Lemma foldM_process_events (src : list (nat * src_page image)) :
  forall out ev,
    In ev (events (foldM process_page' src out)) -> pipeline_event ev.
Proof.
  induction src as [|[i p] src IH]; intros out ev; cbn [foldM]; [intros []|].
  intros H. apply events_bind in H as [H|(out' & _ & H)].
  - rewrite process_page_eq in H.
    apply events_bind in H as [H|(a & _ & [])].
    now apply page_arabic_events in H.
  - now apply IH in H.
Qed.

Lemma build_events_pipeline (input : file) (ev : event image) :
  In ev (events (build' input)) -> pipeline_event ev.
Proof.
  unfold build_translated_pdf. intros H.
  apply events_bind in H as [[]|(src & _ & H)].
  now apply foldM_process_events in H.
Qed.

(** X11.  The assembler never replies to the user: its only events are
    calls to the translation service, each on a chunk of at most 3500
    characters. *)
Theorem build_translated_pdf_events (input : file) (ev : event image) :
  In ev (events (build' input)) ->
  exists c, ev = Translate c /\ len c <= 3500.
Proof. apply build_events_pipeline. Qed.

Lemma copies_app (a b : list (out_page image)) :
  copies (a ++ b) = copies a ++ copies b.
Proof. apply flat_map_app. Qed.

Lemma copies_cons_copied (i : nat) (p : src_page image)
  (l : list (out_page image)) :
  copies (Copied i p :: l) = (i, p) :: copies l.
Proof. reflexivity. Qed.

Lemma copies_translation_pages (i : nat) (p : src_page image) (a : pystr) :
  copies (translation_pages reshape get_display fontfile i p a) = [].
Proof.
  unfold translation_pages. cbv zeta.
  induction (enumerate (split_for_pdf a 2600) 1) as [|[j c] l IH];
    [reflexivity|exact IH].
Qed.

Lemma layout_copies (src : list (src_page image)) :
  forall (i : nat) (arabics : list pystr),
    length arabics = length src ->
    copies (layout' i src arabics) = combine (seq i (length src)) src /\
    (2 * length src <= length (layout' i src arabics))%nat.
Proof.
  induction src as [|p ps IH]; intros i [|a arabics] Hl; simpl in Hl;
    try discriminate; [split; [reflexivity|simpl; lia]|].
  cbn [expected_layout]. unfold page_block.
  destruct (IH (S i) arabics) as [IH1 IH2]; [lia|]. split.
  - rewrite copies_app, copies_cons_copied, copies_translation_pages, IH1.
    reflexivity.
  - cbn [length app]. rewrite length_app.
    assert (1 <= length (translation_pages reshape get_display fontfile
                            i p a))%nat.
    { unfold translation_pages. cbv zeta.
      rewrite length_map, length_enumerate.
      apply split_for_pdf_at_least_one. lia. }
    lia.
Qed.

(** X12.  In the document the assembler saves, the copied pages are the
    source pages, each once, in source order and under its own index, and
    the document has at least twice as many pages as the source. *)
Theorem build_translated_pdf_preserves_source (input : file)
  (src : list (src_page image)) (out : list (out_page image)) :
  fitz_open input = inr src ->
  outcome (build' input) = inr out ->
  copies out = enumerate src 0 /\ (2 * length src <= length out)%nat.
Proof.
  intros Hopen H. unfold build_translated_pdf in H.
  rewrite Hopen, bind_lift_inr in H. unfold enumerate in H.
  apply (foldM_process_pages pytesseract translator reshape get_display
           fontfile src 0 [] out) in H as (arabics & HF & ->).
  apply Forall2_length in HF. cbn [app].
  apply layout_copies. now symmetry.
Qed.

(** X13.  A file that cannot be opened, or a page whose OCR fails, ends the
    run with that exception: no document is saved. *)
Theorem build_translated_pdf_aborts (input : file) :
  (forall e, fitz_open input = inl e -> build' input = ([], inl e)) /\
  (forall src i page e,
      fitz_open input = inr src -> nth_error src i = Some page ->
      pytesseract (get_pixmap page) = inl e ->
      exists e', outcome (build' input) = inl e').
Proof.
  split.
  - intros e H. unfold build_translated_pdf. now rewrite H.
  - intros src i page e Hopen Hnth Hocr.
    destruct (outcome (build' input)) as [e'|out] eqn:O; [now exists e'|].
    exfalso. unfold build_translated_pdf in O.
    rewrite Hopen, bind_lift_inr in O. unfold enumerate in O.
    apply (foldM_process_pages pytesseract translator reshape get_display
             fontfile src 0 [] out) in O as (arabics & HF & _).
    assert (G : exists a, outcome (page_arabic' page) = inr a).
    { clear Hopen. revert i Hnth.
      induction HF as [|p a src arabics Hp _ IH]; intros [|i] Hnth;
        simpl in Hnth; try discriminate.
      - inversion Hnth; subst. now exists a.
      - now apply (IH i). }
    destruct G as (a & G). unfold page_arabic in G. cbv zeta in G.
    rewrite outcome_bind in G.
    unfold extract_text_from_pdf_page, ocr_pil_image in G. cbv zeta in G.
    rewrite outcome_bind in G. unfold lift, outcome in G. simpl in G.
    rewrite Hocr in G. discriminate.
Qed.

(** X14.  For a page without text (blank embedded text, blank OCR) the
    assembler asks for the translation of the English placeholder, in one
    call, and uses the trimmed answer, or the Arabic placeholder when the
    answer is blank. *)
Theorem page_arabic_no_text (page : src_page image) (o : pystr) :
  strip (get_text page) = [] ->
  pytesseract (get_pixmap page) = inr o -> strip o = [] ->
  page_arabic' page
  = ([Translate NO_TEXT_ON_PAGE],
     match translator NO_TEXT_ON_PAGE with
     | inl e => inl e
     | inr a => inr (if truthy (strip a) then strip a else NO_TRANSLATION)
     end).
Proof.
  intros He Ho Hob. unfold page_arabic. cbv zeta.
  unfold extract_text_from_pdf_page, ocr_pil_image. cbv zeta.
  rewrite Ho, bind_lift_inr, He, Hob. cbn [filter truthy join].
  rewrite bind_ret_l.
  change (strip []) with (@nil char). cbn [truthy].
  rewrite (translate_chunked_run translator NO_TEXT_ON_PAGE 3500
             [NO_TEXT_ON_PAGE]);
    [|vm_compute; discriminate|reflexivity].
  cbn [mapM]. rewrite call_translator_eq.
  destruct (translator NO_TEXT_ON_PAGE) as [e|a]; [reflexivity|].
  simpl. now rewrite strip_idem.
Qed.

(** *** Message handlers, continued *)

Lemma replies_pipeline (evs : list (event image)) :
  (forall ev, In ev evs -> pipeline_event ev) -> replies evs = [].
Proof.
  induction evs as [|ev evs IH]; intros H; [reflexivity|].
  destruct (H ev (or_introl eq_refl)) as (c & -> & _). simpl.
  apply IH. intros ev' Hev'. apply H. now right.
Qed.

Lemma replies_app (a b : list (event image)) :
  replies (a ++ b) = replies a ++ replies b.
Proof. apply filter_app. Qed.

(** Once the file is downloaded, the rest of the PDF handler does not
    raise and sends two messages: the progress text, then the translated
    document under the name "translated.pdf" when the assembler succeeded,
    and otherwise the text "Failed to process PDF: " followed by the
    exception. *)
Lemma handle_pdf_replies (document : file) :
  let run := handle_pdf pytesseract translator reshape get_display
               fitz_open fontfile document in
  outcome run = inr tt /\
  replies (events run)
  = [ReplyText (lit "Processing your PDF (OCR + translation)...");
     match outcome (build' document) with
     | inr out => ReplyDocument (PdfFile out) (lit "translated.pdf")
     | inl e => ReplyText (lit "Failed to process PDF: " ++ e)
     end].
Proof.
  pose proof (replies_pipeline (events (build' document))
                (build_events_pipeline document)) as R.
  unfold handle_pdf, attempt. cbv zeta.
  destruct (build' document) as [evs [e|out]]; simpl in R |- *;
    rewrite replies_app, R; split; reflexivity.
Qed.

End AssemblerRuns.

Section HandlerRuns.

Context {image : Type}.
Context (pytesseract : image -> exn + pystr).
Context (translator : pystr -> exn + pystr).

Lemma translate_chunked_strip (text : pystr) (max : Z) :
  translate_chunked (image := image) translator (strip text) max
  = translate_chunked translator text max.
Proof. unfold translate_chunked. now rewrite strip_idem. Qed.

Lemma ocr_and_translate_events (img : image) (ev : event image) :
  In ev (events (ocr_and_translate pytesseract translator img)) ->
  pipeline_event ev.
Proof.
  unfold ocr_and_translate, ocr_pil_image. cbv zeta. intros H.
  apply events_bind in H as [[]|(o & _ & H)].
  apply events_bind in H as [H|(a & _ & [])].
  now apply (translate_chunked_events translator) in H.
Qed.

(** Once the image is opened, the rest of the image handler does not
    raise and sends two messages: the progress text, then the translation
    (as text up to 3500 characters, else as the document
    "translation_ar.txt"), or the text "Failed to process image: "
    followed by the exception when OCR or translation failed.  The
    translation it sends is never empty. *)
Lemma handle_image_replies (img : image) :
  let run := handle_image pytesseract translator img in
  outcome run = inr tt /\
  replies (events run)
  = [ReplyText (lit "Processing image (OCR + translation)...");
     match outcome (ocr_and_translate pytesseract translator img) with
     | inr (_, arabic) =>
         if len arabic <=? 3500 then ReplyText arabic
         else ReplyDocument (TextFile arabic) (lit "translation_ar.txt")
     | inl e => ReplyText (lit "Failed to process image: " ++ e)
     end] /\
  (forall extracted arabic,
      outcome (ocr_and_translate pytesseract translator img)
      = inr (extracted, arabic) ->
      extracted <> [] /\ arabic <> []).
Proof.
  pose proof (replies_pipeline
                (events (ocr_and_translate pytesseract translator img))
                (ocr_and_translate_events img)) as R.
  cbv zeta. split; [|split].
  - unfold handle_image, attempt.
    destruct (ocr_and_translate pytesseract translator img)
      as [evs [e|[ex ar]]]; [reflexivity|].
    simpl. now destruct (len ar <=? 3500).
  - unfold handle_image, attempt.
    destruct (ocr_and_translate pytesseract translator img)
      as [evs [e|[ex ar]]]; simpl in R |- *.
    + now rewrite replies_app, R.
    + destruct (len ar <=? 3500); simpl; now rewrite replies_app, R.
  - intros ex ar. unfold ocr_and_translate, ocr_pil_image. cbv zeta.
    destruct (pytesseract img) as [e|o]; [discriminate|].
    rewrite bind_lift_inr, outcome_bind.
    destruct (outcome (translate_chunked translator _ 3500)) as [e|a];
      [discriminate|].
    unfold ret, outcome. cbn [snd]. intros H. injection H as <- <-.
    split.
    + destruct (strip o); simpl; discriminate.
    + destruct (strip a); simpl; discriminate.
Qed.

(** X17.  The text handler ignores a blank message: no event, no reply.
    For any other message whose translation succeeds it sends exactly one
    message, the translation or the Arabic placeholder when the
    translation is empty, hence never an empty text. *)
Theorem handle_text_replies (text : pystr) :
  let run := handle_text (image := image) translator text in
  (strip text = [] -> run = ([], inr tt)) /\
  (strip text <> [] ->
   forall a,
     outcome (translate_chunked (image := image) translator text 3500)
     = inr a ->
     let answer := if truthy a then a else NO_TRANSLATION in
     outcome run = inr tt /\
     replies (events run) = [ReplyText answer] /\
     answer <> []).
Proof.
  cbv zeta. unfold handle_text. cbv zeta. split.
  - intros H. now rewrite H.
  - intros Hne a Ha. apply truthy_true in Hne. rewrite Hne. cbn [negb].
    rewrite translate_chunked_strip.
    pose proof (replies_pipeline
                  (events (translate_chunked (image := image)
                             translator text 3500))
                  (translate_chunked_events translator text)) as R.
    destruct (translate_chunked translator text 3500) as [evs [e|a']];
      simpl in Ha, R |- *; [discriminate|].
    injection Ha as ->. rewrite replies_app, R. repeat split.
    destruct a; simpl; discriminate.
Qed.

End HandlerRuns.

Lemma build_translated_pdf_events_witness :
  exists c, Translate (image := Demo.image) NO_TEXT_ON_PAGE = Translate c /\
            len c <= 3500.
Proof.
  apply (build_translated_pdf_events Demo.pytesseract Demo.translator_echo
           Demo.reshape Demo.get_display Demo.fitz_open Demo.fontfile
           Demo.demo_pdf).
  vm_compute. right. left. reflexivity.
Defined.

Lemma build_translated_pdf_preserves_source_witness :
  exists out,
    outcome (build_translated_pdf Demo.pytesseract Demo.translator_echo
               Demo.reshape Demo.get_display Demo.fitz_open Demo.fontfile
               Demo.demo_pdf) = inr out /\
    copies out = enumerate Demo.demo_pdf 0 /\
    (2 * length Demo.demo_pdf <= length out)%nat.
Proof.
  eexists. split; [reflexivity|].
  apply (build_translated_pdf_preserves_source Demo.pytesseract
           Demo.translator_echo Demo.reshape Demo.get_display Demo.fitz_open
           Demo.fontfile Demo.demo_pdf Demo.demo_pdf); reflexivity.
Defined.

Lemma page_arabic_no_text_witness :
  page_arabic Demo.pytesseract Demo.translator_mock
    (mk_src_page [] (lit "  ") 612 792)
  = ([Translate NO_TEXT_ON_PAGE], inr Demo.ARABIC_TEST).
Proof.
  apply (page_arabic_no_text Demo.pytesseract Demo.translator_mock
           (mk_src_page [] (lit "  ") 612 792) (lit "  ")); reflexivity.
Defined.

(** * The PPT to PDF bot *)

Module PptBotFacts.
Import PptBot.

Lemma eqb_str_eq (a b : jsstr) : eqb_str a b = true <-> a = b.
Proof.
  revert b. induction a as [|x a IH]; intros [|y b]; simpl;
    try (split; [discriminate|discriminate]); [tauto|].
  rewrite andb_true_iff, N.eqb_eq, IH. split.
  - now intros [-> ->].
  - intros H; inversion H; auto.
Qed.

Lemma ext_matches_inv (s : jsstr) :
  ext_matches s = true <->
  map canon s = lit ".PPT" \/ map canon s = lit ".PPTX".
Proof.
  unfold ext_matches. now rewrite orb_true_iff, !eqb_str_eq.
Qed.

Lemma ext_matches_length (s : jsstr) :
  ext_matches s = true -> length s = 4%nat \/ length s = 5%nat.
Proof.
  intros H. apply ext_matches_inv in H as [H|H];
    apply (f_equal (@length _)) in H; rewrite length_map in H;
    [left|right]; exact H.
Qed.

(** The pattern cannot match both at a position and further right: its
    match is the extension, and no extension sits inside another. *)
Lemma ext_matches_once (c : N) (pre ext : jsstr) :
  ext_matches ext = true -> ext_matches (c :: pre ++ ext) = false.
Proof.
  intros He. destruct (ext_matches (c :: pre ++ ext)) eqn:E; [|reflexivity].
  exfalso. pose proof (ext_matches_length _ He) as Le.
  pose proof (ext_matches_length _ E) as Ls.
  simpl in Ls. rewrite length_app in Ls.
  assert (Hp : pre = []) by (destruct pre; [reflexivity|simpl in Ls; lia]).
  subst pre. simpl in E, Ls.
  apply ext_matches_inv in He, E.
  destruct ext as [|a [|b [|d [|f [|g ext]]]]]; simpl in Ls, Le; try lia.
  destruct He as [He|He]; [|discriminate He].
  destruct E as [E|E]; [discriminate E|].
  cbn in He, E. injection He as Ha _ _ _. injection E as _ Ea _ _ _.
  rewrite Ha in Ea. discriminate Ea.
Qed.

(** What the search finds: the name is the part before the match followed
    by an extension, and that decomposition is the only one. *)
Lemma search_spec (s pre : jsstr) :
  search s = Some pre <->
  exists ext, s = pre ++ ext /\ ext_matches ext = true.
Proof.
  split.
  - revert pre. induction s as [|c s IH]; intros pre; [discriminate|].
    cbn [search]. destruct (ext_matches (c :: s)) eqn:E.
    + intros H; injection H as <-. now exists (c :: s).
    + destruct (search s) as [pre'|]; [|discriminate].
      intros H; injection H as <-.
      destruct (IH pre' eq_refl) as (ext & -> & He). now exists ext.
  - intros (ext & -> & He). induction pre as [|c pre IH].
    + destruct ext as [|c ext]; [discriminate He|].
      cbn [app search]. now rewrite He.
    + cbn [app search]. rewrite (ext_matches_once c pre ext He).
      now rewrite IH.
Qed.

(** X18.  The handler accepts exactly the names that end with ".ppt" or
    ".pptx" in any letter case, and for such a name the converted file is
    named after it with that extension replaced by ".pdf". *)
Theorem ppt_names (file_name : jsstr) :
  (is_ppt file_name = true <->
   exists stem ext,
     file_name = stem ++ ext /\
     (map canon ext = lit ".PPT" \/ map canon ext = lit ".PPTX")) /\
  (forall stem ext,
      file_name = stem ++ ext ->
      map canon ext = lit ".PPT" \/ map canon ext = lit ".PPTX" ->
      to_pdf_name file_name = stem ++ lit ".pdf").
Proof.
  split.
  - unfold is_ppt. split.
    + destruct (search file_name) as [pre|] eqn:S; [|discriminate].
      intros _. apply search_spec in S as (ext & -> & He).
      exists pre, ext. split; [reflexivity|]. now apply ext_matches_inv.
    + intros (stem & ext & -> & He). apply ext_matches_inv in He.
      assert (S : search (stem ++ ext) = Some stem)
        by (apply search_spec; now exists ext).
      now rewrite S.
  - intros stem ext -> He. apply ext_matches_inv in He.
    assert (S : search (stem ++ ext) = Some stem)
      by (apply search_spec; now exists ext).
    unfold to_pdf_name. now rewrite S.
Qed.

Section HandlerFacts.

Context (BOT_TOKEN START_TASK_URL : jsstr).
Context (getFile : jsstr -> js_error + jsstr).
Context (axios_get : jsstr -> option jsstr -> js_error + bytes).
Context (axios_post_start : jsstr -> js_error + (jsstr * jsstr * jsstr)).
Context (axios_post_upload :
           jsstr -> jsstr -> bytes -> jsstr -> jsstr -> js_error + jsstr).
Context (axios_post_process :
           jsstr -> jsstr -> jsstr -> jsstr -> jsstr -> js_error + unit).

Local Abbreviation convert' :=
  (convert BOT_TOKEN START_TASK_URL getFile axios_get axios_post_start
     axios_post_upload axios_post_process).
Local Abbreviation on_document' :=
  (on_document BOT_TOKEN START_TASK_URL getFile axios_get axios_post_start
     axios_post_upload axios_post_process).

(** X19.  A document whose name does not end with ".ppt" or ".pptx" is
    refused with one reply, and nothing is requested from Telegram or from
    the conversion service. *)
Theorem on_document_refuses (closing file_name file_id : jsstr) :
  (forall stem ext,
      file_name = stem ++ ext ->
      map canon ext <> lit ".PPT" /\ map canon ext <> lit ".PPTX") ->
  on_document' closing file_name file_id = [Reply ONLY_PPT].
Proof.
  intros H. unfold on_document, is_ppt.
  destruct (search file_name) as [pre|] eqn:S; [|reflexivity].
  apply search_spec in S as (ext & E & He). apply ext_matches_inv in He.
  destruct (H pre ext E) as [H1 H2]. tauto.
Qed.

Lemma clean_failure_bind {A B} (m : Js A) (k : A -> Js B) :
  filter is_document (fst m) = [] ->
  (forall a, clean_failure (k a)) -> clean_failure (jbind m k).
Proof.
  intros Hm Hk. destruct m as [evs [e|a]]; simpl in *; [exact Hm|].
  specialize (Hk a). unfold clean_failure in *.
  destruct (k a) as [evs' [e|b]]; simpl in *; [|exact I].
  now rewrite filter_app, Hm, Hk.
Qed.

Lemma convert_clean_failure (closing file_name file_id : jsstr) :
  clean_failure (convert' closing file_name file_id).
Proof.
  unfold convert.
  apply clean_failure_bind; [reflexivity|]. intros _.
  apply clean_failure_bind; [reflexivity|]. intros file_path. cbv zeta.
  apply clean_failure_bind; [reflexivity|]. intros fileBuffer.
  apply clean_failure_bind; [reflexivity|]. intros [[server task] token].
  apply clean_failure_bind; [reflexivity|]. intros serverFilename.
  apply clean_failure_bind; [reflexivity|]. intros _.
  apply clean_failure_bind; [reflexivity|]. intros pdfBuffer.
  exact I.
Qed.

Lemma convert_starts (closing file_name file_id : jsstr) :
  exists evs, fst (convert' closing file_name file_id)
              = Reply CONVERTING :: GetFile file_id :: evs.
Proof.
  unfold convert. unfold jbind at 1, say at 1.
  match goal with
  | |- context [let (evs', r) := ?m in _] => destruct m as [evs r] eqn:M
  end.
  unfold jbind at 1, call at 1 in M.
  destruct (getFile file_id) as [e|fp].
  - injection M as <- <-. now exists [].
  - match type of M with
    | context [let (evs', r) := ?m in _] => destruct m as [evs1 r1]
    end.
    injection M as <- <-. now exists evs1.
Qed.

(** X20.  For an accepted name, an error thrown by any step of the
    conversion is caught: the handler ends with the reply "Error: " and
    the message of the conversion service when there is a non-empty one,
    else the message of the error; no document is sent; and the run began
    with the progress reply and the request for the file. *)
Theorem on_document_reports_failure (closing file_name file_id : jsstr)
  (err : js_error) :
  is_ppt file_name = true ->
  snd (convert' closing file_name file_id) = inl err ->
  let run := on_document' closing file_name file_id in
  run = fst (convert' closing file_name file_id)
        ++ [Reply (ERROR_PREFIX ++ error_text err)] /\
  filter is_document run = [] /\
  (exists evs, run = Reply CONVERTING :: GetFile file_id :: evs).
Proof.
  intros Hppt Herr run. unfold run, on_document. rewrite Hppt. cbn [negb].
  pose proof (convert_clean_failure closing file_name file_id) as C.
  destruct (convert_starts closing file_name file_id) as (evs0 & S).
  unfold clean_failure in C.
  destruct (convert' closing file_name file_id) as [evs r].
  simpl in Herr, C, S |- *. subst r. split; [reflexivity|]. split.
  - now rewrite filter_app, C.
  - subst evs. now eexists.
Qed.

(** X21.  When every step answers, the handler performs, in this order:
    the progress reply, the request for the file, the download from
    Telegram (no bearer token), the start of a task, then upload,
    conversion and download at the server of the task, each with the
    bearer token of the task; it sends the converted bytes under the PDF
    name, and the closing text. *)
Theorem on_document_converts (closing file_name file_id : jsstr)
  (file_path server task token serverFilename : jsstr)
  (fileBuffer pdfBuffer : bytes) :
  let fileUrl := lit "https://api.telegram.org/file/bot" ++ BOT_TOKEN
                 ++ lit "/" ++ file_path in
  let upload_url := lit "https://" ++ server ++ lit "/v1/upload" in
  let process_url := lit "https://" ++ server ++ lit "/v1/process" in
  let download_url :=
    lit "https://" ++ server ++ lit "/v1/download/" ++ task in
  is_ppt file_name = true ->
  getFile file_id = inr file_path ->
  axios_get fileUrl None = inr fileBuffer ->
  axios_post_start START_TASK_URL = inr (server, task, token) ->
  axios_post_upload upload_url task fileBuffer file_name token
  = inr serverFilename ->
  axios_post_process process_url task serverFilename file_name token
  = inr tt ->
  axios_get download_url (Some token) = inr pdfBuffer ->
  on_document' closing file_name file_id
  = [Reply CONVERTING; GetFile file_id; HttpGet fileUrl None;
     HttpPost START_TASK_URL None; HttpPost upload_url (Some token);
     HttpPost process_url (Some token); HttpGet download_url (Some token);
     ReplyWithDocument pdfBuffer (to_pdf_name file_name); Reply closing].
Proof.
  intros fileUrl upload_url process_url download_url
         Hppt H1 H2 H3 H4 H5 H6.
  subst fileUrl upload_url process_url download_url.
  unfold on_document, convert, jbind, call, say.
  rewrite Hppt, H1. cbv beta iota zeta.
  rewrite H2. cbv beta iota zeta.
  rewrite H3. cbv beta iota zeta.
  rewrite H4. cbv beta iota zeta.
  rewrite H5. cbv beta iota zeta.
  rewrite H6. reflexivity.
Qed.

End HandlerFacts.

Lemma ppt_names_witness :
  to_pdf_name (lit "Slides.v2.PPTx") = lit "Slides.v2.pdf".
Proof.
  apply (proj2 (ppt_names (lit "Slides.v2.PPTx"))
           (lit "Slides.v2") (lit ".PPTx")).
  - reflexivity.
  - right. reflexivity.
Defined.

Lemma on_document_refuses_witness :
  on_document (lit "123:abc") (lit "https://start.example.org")
    demo_getFile demo_get demo_start demo_upload demo_process
    CONVERTED_indes (lit "a.pdf") (lit "f1")
  = [Reply ONLY_PPT].
Proof.
  apply on_document_refuses. intros stem ext E.
  do 6 (try (destruct stem as [|? stem])); vm_compute in E;
    try discriminate E;
    try (injection E; intros); subst; split; vm_compute; discriminate.
Defined.

Lemma on_document_reports_failure_witness :
  on_document (lit "123:abc") (lit "https://start.example.org")
    demo_getFile demo_get demo_start demo_upload demo_process_refused
    CONVERTED_index (lit "talk.ppt") (lit "f1")
  = [Reply CONVERTING; GetFile (lit "f1");
     HttpGet (lit "https://api.telegram.org/file/bot123:abc/documents/file_7.pptx") None;
     HttpPost (lit "https://start.example.org") None;
     HttpPost (lit "https://api8.example.org/v1/upload") (Some (lit "secret"));
     HttpPost (lit "https://api8.example.org/v1/process") (Some (lit "secret"));
     Reply (ERROR_PREFIX ++ lit "Damaged file")].
Proof.
  apply (on_document_reports_failure (lit "123:abc")
           (lit "https://start.example.org")
           demo_getFile demo_get demo_start demo_upload demo_process_refused
           CONVERTED_index (lit "talk.ppt") (lit "f1")
           (mk_error (Some (lit "Damaged file"))
              (lit "Request failed with status code 400")));
    reflexivity.
Defined.

Lemma on_document_converts_witness :
  on_document (lit "123:abc") (lit "https://start.example.org")
    demo_getFile demo_get demo_start demo_upload demo_process
    CONVERTED_indes (lit "talk.PPTX") (lit "f1")
  = [Reply CONVERTING; GetFile (lit "f1");
     HttpGet (lit "https://api.telegram.org/file/bot123:abc/documents/file_7.pptx") None;
     HttpPost (lit "https://start.example.org") None;
     HttpPost (lit "https://api8.example.org/v1/upload") (Some (lit "secret"));
     HttpPost (lit "https://api8.example.org/v1/process") (Some (lit "secret"));
     HttpGet (lit "https://api8.example.org/v1/download/t42") (Some (lit "secret"));
     ReplyWithDocument [1; 2; 3]%N (lit "talk.pdf"); Reply CONVERTED_indes].
Proof.
  apply (on_document_converts (lit "123:abc")
           (lit "https://start.example.org")
           demo_getFile demo_get demo_start demo_upload demo_process
           CONVERTED_indes (lit "talk.PPTX") (lit "f1")
           (lit "documents/file_7.pptx") (lit "api8.example.org")
           (lit "t42") (lit "secret") (lit "srv_1.pptx")
           [1; 2; 3]%N [1; 2; 3]%N);
    reflexivity.
Defined.

End PptBotFacts.

(** * The PDF and image handlers, from the update *)

Section UpdateRuns.

Context {image file image_file tg_ref tg_file : Type}.
Context (pytesseract : image -> exn + pystr).
Context (translator : pystr -> exn + pystr).
Context (reshape get_display : pystr -> pystr).
Context (fitz_open : file -> exn + list (src_page image)).
Context (fontfile : option pystr).
Context (get_file : tg_ref -> exn + tg_file).
Context (download_pdf : tg_file -> exn + file).
Context (download_image : tg_file -> exn + image_file).
Context (image_open : image_file -> exn + image).

Local Abbreviation build' :=
  (build_translated_pdf pytesseract translator reshape get_display
     fitz_open fontfile).
Local Abbreviation handle_pdf' :=
  (handle_pdf pytesseract translator reshape get_display fitz_open fontfile).
Local Abbreviation handle_pdf_update' :=
  (handle_pdf_update pytesseract translator reshape get_display fitz_open
     fontfile get_file download_pdf).
Local Abbreviation worker' :=
  (open_ocr_and_translate pytesseract translator image_open).
Local Abbreviation handle_image_update' :=
  (handle_image_update pytesseract translator get_file download_image
     image_open).

(** Once the file is there, the whole handler is the handler from the
    download on. *)
Lemma handle_pdf_update_downloaded (doc : tg_ref) (tg : tg_file)
  (input : file) :
  get_file doc = inr tg -> download_pdf tg = inr input ->
  handle_pdf_update' doc = handle_pdf' input.
Proof.
  intros Hg Hd. unfold handle_pdf_update, handle_pdf.
  apply bind_ext. intros _. now rewrite Hg, bind_lift_inr, Hd, bind_lift_inr.
Qed.

(** X15.  The PDF handler first sends the progress text.  When asking
    Telegram for the file or downloading it raises, that exception leaves
    the handler: the progress text is the only message and no failure is
    reported.  Otherwise the handler does not raise and sends exactly one
    more message: the built document under the name "translated.pdf", or
    "Failed to process PDF: " followed by the exception of the
    assembler. *)
Theorem handle_pdf_update_replies (doc : tg_ref) :
  let run := handle_pdf_update' doc in
  let progress :=
    ReplyText (lit "Processing your PDF (OCR + translation)...") in
  match get_file doc with
  | inl e => run = ([progress], inl e)
  | inr tg =>
      match download_pdf tg with
      | inl e => run = ([progress], inl e)
      | inr input =>
          outcome run = inr tt /\
          replies (events run)
          = [progress;
             match outcome (build' input) with
             | inr out => ReplyDocument (PdfFile out) (lit "translated.pdf")
             | inl e => ReplyText (lit "Failed to process PDF: " ++ e)
             end]
      end
  end.
Proof.
  cbv zeta. destruct (get_file doc) as [e|tg] eqn:Hg.
  - unfold handle_pdf_update. now rewrite Hg.
  - destruct (download_pdf tg) as [e|input] eqn:Hd.
    + unfold handle_pdf_update. rewrite Hg.
      unfold bind at 1, reply_text, emit.
      rewrite bind_lift_inr, Hd. reflexivity.
    + rewrite (handle_pdf_update_downloaded doc tg input Hg Hd).
      apply (handle_pdf_replies pytesseract translator reshape get_display
               fitz_open fontfile input).
Qed.

(** Once the image is there and opens, the whole handler is the handler
    from the opened image on. *)
Lemma handle_image_update_opened (msg : image_message tg_ref) (tg : tg_file)
  (f : image_file) (img : image) :
  image_tg_file get_file msg = inr tg -> download_image tg = inr f ->
  image_open f = inr img ->
  handle_image_update' msg = handle_image pytesseract translator img.
Proof.
  intros Hg Hd Ho. unfold handle_image_update, handle_image.
  apply bind_ext. intros _. rewrite Hg, bind_lift_inr, Hd, bind_lift_inr.
  unfold open_ocr_and_translate. now rewrite Ho, bind_lift_inr.
Qed.

Lemma open_ocr_and_translate_events (f : image_file) (ev : event image) :
  In ev (events (worker' f)) -> pipeline_event ev.
Proof.
  unfold open_ocr_and_translate. intros H.
  apply events_bind in H as [[]|(img & _ & H)].
  now apply (ocr_and_translate_events pytesseract translator) in H.
Qed.

(** X16.  The image handler first sends the progress text and fetches the
    largest size of a photo, or else the document.  When asking Telegram
    for the file or downloading it raises, that exception leaves the
    handler: the progress text is the only message and no failure is
    reported.  Otherwise the handler does not raise and sends exactly one
    more message: "Failed to process image: " followed by the exception
    when opening the image, OCR or translation failed, and else the
    translation, never empty, as text up to 3500 characters and as the
    document "translation_ar.txt" beyond. *)
Theorem handle_image_update_replies (msg : image_message tg_ref) :
  let run := handle_image_update' msg in
  let progress := ReplyText (lit "Processing image (OCR + translation)...") in
  image_tg_file get_file msg
  = match rev (photo msg), document msg with
    | largest :: _, _ => get_file largest
    | [], Some d => get_file d
    | [], None => inl AttributeError_get_file
    end /\
  match image_tg_file get_file msg with
  | inl e => run = ([progress], inl e)
  | inr tg =>
      match download_image tg with
      | inl e => run = ([progress], inl e)
      | inr f =>
          outcome run = inr tt /\
          replies (events run)
          = [progress;
             match outcome (worker' f) with
             | inr (_, arabic) =>
                 if len arabic <=? 3500 then ReplyText arabic
                 else ReplyDocument (TextFile arabic)
                        (lit "translation_ar.txt")
             | inl e => ReplyText (lit "Failed to process image: " ++ e)
             end] /\
          (forall extracted arabic,
              outcome (worker' f) = inr (extracted, arabic) ->
              arabic <> [])
      end
  end.
Proof.
  cbv zeta. split.
  { unfold image_tg_file. now destruct (rev (photo msg)). }
  destruct (image_tg_file get_file msg) as [e|tg] eqn:Hg.
  - unfold handle_image_update. now rewrite Hg.
  - destruct (download_image tg) as [e|f] eqn:Hd.
    + unfold handle_image_update. rewrite Hg.
      unfold bind at 1, reply_text, emit.
      rewrite bind_lift_inr, Hd. reflexivity.
    + pose proof (replies_pipeline (events (worker' f))
                    (open_ocr_and_translate_events f)) as R.
      unfold handle_image_update. rewrite Hg.
      unfold bind at 1, reply_text at 1, emit at 1.
      rewrite bind_lift_inr, Hd, bind_lift_inr. unfold attempt.
      split; [|split].
      * destruct (worker' f) as [evs [e|[ex ar]]]; [reflexivity|].
        simpl. now destruct (len ar <=? 3500).
      * destruct (worker' f) as [evs [e|[ex ar]]]; simpl in R |- *.
        -- now rewrite replies_app, R.
        -- destruct (len ar <=? 3500); simpl; now rewrite replies_app, R.
      * intros ex ar. unfold open_ocr_and_translate.
        destruct (image_open f) as [e|img]; [discriminate|].
        rewrite bind_lift_inr.
        apply (handle_image_replies pytesseract translator img).
Qed.

End UpdateRuns.

Lemma handle_pdf_update_replies_witness :
  handle_pdf_update Demo.pytesseract Demo.translator_echo Demo.reshape
    Demo.get_display Demo.fitz_open Demo.fontfile Demo.get_file_refused
    Demo.download_pdf (lit "file-1")
  = ([ReplyText (lit "Processing your PDF (OCR + translation)...")],
     inl (lit "File is too big")).
Proof.
  exact (handle_pdf_update_replies Demo.pytesseract Demo.translator_echo
           Demo.reshape Demo.get_display Demo.fitz_open Demo.fontfile
           Demo.get_file_refused Demo.download_pdf (lit "file-1")).
Defined.

Lemma handle_image_update_replies_witness :
  replies (events (handle_image_update Demo.pytesseract Demo.translator_mock
                     Demo.get_file Demo.download_image Demo.image_open
                     (mk_image_message [lit "small"; lit "large"] None)))
  = [ReplyText (lit "Processing image (OCR + translation)...");
     ReplyText Demo.ARABIC_TEST].
Proof.
  exact (proj1 (proj2 (proj2
           (handle_image_update_replies Demo.pytesseract Demo.translator_mock
              Demo.get_file Demo.download_image Demo.image_open
              (mk_image_message [lit "small"; lit "large"] None))))).
Defined.
